(** * FusedAggregation (torch_geometric/nn/aggr/fused.py)

    A shallow embedding of [FusedAggregation.__init__] and
    [FusedAggregation.forward], and the properties of the fused engine.

    - Scalars are IEEE binary64 numbers, the entries of a tensor of dtype
      [torch.float64]: Rocq's primitive floats, whose operations are the
      correctly rounded IEEE ones.  The constant [1e-5] is its nearest
      binary64 number.
    - Tensors are lists: a vector is a [list float], a matrix the list of
      its rows.  A group index is a [list Z].
    - The primitives of torch ([scatter_add_], [scatter_reduce_], indexed
      assignment, [cat]) follow their documented contract on the CPU: the
      source rows are accumulated in index order, an index value out of
      bounds or an index longer than the source raises.
    - Python exceptions are values of an error monad; each carries the
      line of fused.py it is raised at.
    - The parameter [dim_size: Optional[int] = None] is an [option Z]; a
      group count [G : nat] stands for the argument [Some G].
    - [assert_index_present] and [assert_two_dimensional_input] belong to
      the base class [Aggregation], which is not among the sources. *)

From Stdlib Require Import ZArith Lia Floats.
From stdpp Require Import base option list gmap.

(** ** Exceptions *)

(** The Python exception classes the code can raise.  An exception is
    recorded with the line of fused.py that raises it (for an exception of
    a torch primitive or of a helper of the base class: the line of the
    call). *)
Inductive exn :=
| ValueError | NotImplementedError | RuntimeError | IndexError
| AssertionError | TypeError | KeyError | UnboundLocalError.

Inductive result (A : Type) :=
| Raise (e : exn) (line : nat)
| Ok (a : A).
Arguments Raise {A} e line.
Arguments Ok {A} a.

#[global] Instance exn_eq_dec : EqDecision exn.
Proof. solve_decision. Defined.

Definition bind {A B} (m : result A) (k : A -> result B) : result B :=
  match m with
  | Raise e line => Raise e line
  | Ok a => k a
  end.

Notation "'let*' x := m 'in' k" := (bind m (fun x => k))
  (at level 10, x name, m at level 200, k at level 200, only parsing).

(** [may_raise P m]: the only exceptions [m] can raise are those of [P]. *)
Definition may_raise {A} (P : exn -> nat -> Prop) (m : result A) : Prop :=
  match m with
  | Raise e line => P e line
  | Ok _ => True
  end.

(** ** Scalars *)

Module Scalar.

(** [1e-5] as a binary64 number. *)
Definition eps : float := 0x1.4f8b588e368f1p-17%float.

Definition is_nan (a : float) : bool := negb (a =? a)%float.

(** The combining functions of [scatter_reduce_]: 'amin' and 'amax' take
    the source when it is NaN, and [std::min], [std::max] otherwise. *)
Definition amin (self src : float) : float :=
  if is_nan src then src else if (src <? self)%float then src else self.

Definition amax (self src : float) : float :=
  if is_nan src then src else if (self <? src)%float then src else self.

(** [Tensor.relu]: [max(v, 0)], a NaN stays a NaN. *)
Definition relu (v : float) : float := if (v <? 0)%float then 0%float else v.

(** [Tensor.clamp_(min=1)] on one entry. *)
Definition clamp_min1 (c : float) : float := if (c <? 1)%float then 1%float else c.

(** [(var.relu() + 1e-5).sqrt()] on one entry. *)
Definition std_of_var (v : float) : float := sqrt (relu v + eps)%float.

End Scalar.

(** ** Aggregation classes and the class-level tables *)

(** The classes [aggregation_resolver] can return: the seven the module
    imports, and [OtherAggregation] for every other class. *)
Inductive Aggr :=
| SumAggregation | MeanAggregation | MinAggregation | MaxAggregation
| MulAggregation | VarAggregation | StdAggregation | OtherAggregation.

#[global] Instance Aggr_eq_dec : EqDecision Aggr.
Proof. solve_decision. Defined.

Definition Aggr_to_nat (c : Aggr) : nat :=
  match c with
  | SumAggregation => 0 | MeanAggregation => 1 | MinAggregation => 2
  | MaxAggregation => 3 | MulAggregation => 4 | VarAggregation => 5
  | StdAggregation => 6 | OtherAggregation => 7
  end.

Definition Aggr_of_nat (n : nat) : Aggr :=
  match n with
  | 0 => SumAggregation | 1 => MeanAggregation | 2 => MinAggregation
  | 3 => MaxAggregation | 4 => MulAggregation | 5 => VarAggregation
  | 6 => StdAggregation | _ => OtherAggregation
  end.

#[global] Instance Aggr_countable : Countable Aggr.
Proof.
  refine (inj_countable' Aggr_to_nat Aggr_of_nat _).
  intros []; reflexivity.
Defined.

(** The [reduce] options of the scatter directives (strings in the
    source). *)
Inductive reduce := r_sum | r_amin | r_amax | r_prod | r_pow_sum.

#[global] Instance reduce_eq_dec : EqDecision reduce.
Proof. solve_decision. Defined.

Definition FUSABLE_AGGRS (c : Aggr) : bool :=
  match c with
  | OtherAggregation => false
  | _ => true
  end.

Definition DEGREE_BASED_AGGRS (c : Aggr) : bool :=
  match c with
  | MeanAggregation | VarAggregation | StdAggregation => true
  | _ => false
  end.

Definition MASK_REQUIRED_AGGRS (c : Aggr) : bool :=
  match c with
  | MinAggregation | MaxAggregation | MulAggregation => true
  | _ => false
  end.

(** The dictionary [REDUCE]; a class that is not a key raises
    [KeyError]. *)
Definition REDUCE (line : nat) (c : Aggr) : result reduce :=
  match c with
  | SumAggregation => Ok r_sum
  | MeanAggregation => Ok r_sum
  | MinAggregation => Ok r_amin
  | MaxAggregation => Ok r_amax
  | MulAggregation => Ok r_prod
  | VarAggregation => Ok r_pow_sum
  | StdAggregation => Ok r_pow_sum
  | OtherAggregation => Raise KeyError line
  end.

(** ** The constructor *)

Record FusedAggregation := {
  aggr_cls : list Aggr;
  aggr_index : gmap Aggr nat;
  need_degree : bool;
  requires_mask : bool;
  reduce_ops : list (option reduce);
  lookup_ops : list (option (Aggr * nat));
}.

Fixpoint enumerate_from {A} (n : nat) (l : list A) : list (nat * A) :=
  match l with
  | [] => []
  | x :: l => (n, x) :: enumerate_from (S n) l
  end.

(** [{cls: i for i, cls in enumerate(aggr_cls)}]: a later position
    overwrites an earlier one of the same class. *)
Definition build_aggr_index (cls : list Aggr) : gmap Aggr nat :=
  foldl (fun d ic => <[ic.2 := ic.1]> d) ∅ (enumerate_from 0 cls).

(** One iteration of the loop of lines 103-147: the entries appended to
    [reduce_ops] and to [lookup_ops]. *)
Definition plan_entry (index : gmap Aggr nat) (cls : Aggr)
  : result (option reduce * option (Aggr * nat)) :=
  match cls with
  | MeanAggregation =>
      match index !! SumAggregation with
      | Some j => Ok (None, Some (SumAggregation, j))
      | None => let* r := REDUCE 111 cls in Ok (Some r, None)
      end
  | VarAggregation =>
      match index !! MeanAggregation with
      | Some j => let* r := REDUCE 116 cls in Ok (Some r, Some (MeanAggregation, j))
      | None =>
          match index !! SumAggregation with
          | Some j => let* r := REDUCE 120 cls in Ok (Some r, Some (SumAggregation, j))
          | None => let* r := REDUCE 124 cls in Ok (Some r, None)
          end
      end
  | StdAggregation =>
      match index !! VarAggregation with
      | Some j => Ok (None, Some (VarAggregation, j))
      | None =>
          match index !! MeanAggregation with
          | Some j => let* r := REDUCE 134 cls in Ok (Some r, Some (MeanAggregation, j))
          | None =>
              match index !! SumAggregation with
              | Some j => let* r := REDUCE 138 cls in Ok (Some r, Some (SumAggregation, j))
              | None => let* r := REDUCE 142 cls in Ok (Some r, None)
              end
          end
      end
  | _ => let* r := REDUCE 146 cls in Ok (Some r, None)
  end.

Fixpoint plan_loop (index : gmap Aggr nat) (cls : list Aggr)
  : result (list (option reduce) * list (option (Aggr * nat))) :=
  match cls with
  | [] => Ok ([], [])
  | c :: cls =>
      let* e := plan_entry index c in
      let* rest := plan_loop index cls in
      Ok (e.1 :: rest.1, e.2 :: rest.2)
  end.

(** [FusedAggregation.__init__], on the list of classes the resolver
    returned. *)
Definition init (aggrs : list Aggr) : result FusedAggregation :=
  if bool_decide (length aggrs = 0) then Raise ValueError 71
  else
    let index := build_aggr_index aggrs in
    if negb (forallb FUSABLE_AGGRS aggrs) then Raise ValueError 80
    else
      let* plan := plan_loop index aggrs in
      Ok {| aggr_cls := aggrs;
            aggr_index := index;
            need_degree := existsb DEGREE_BASED_AGGRS aggrs;
            requires_mask := existsb MASK_REQUIRED_AGGRS aggrs;
            reduce_ops := plan.1;
            lookup_ops := plan.2 |}.

(** ** Tensors and the torch primitives *)

Abbreviation matrix := (list (list float)).

(** The tensors [forward] can receive as [x]: of one, two or three
    dimensions.  [Tensor2 F rows] has shape [(length rows, F)]. *)
Inductive Tensor :=
| Tensor1 (data : list float)
| Tensor2 (num_feats : nat) (rows : matrix)
| Tensor3 (size1 num_feats : nat) (data : list matrix).

Definition Tensor_dim (x : Tensor) : nat :=
  match x with
  | Tensor1 _ => 1
  | Tensor2 _ _ => 2
  | Tensor3 _ _ _ => 3
  end.

(** The parameter [dim_size: Optional[int] = None] of [forward]. *)
Definition Optional_int := option Z.

(** The argument [dim_size = G] of an invocation with [G] groups. *)
Definition group_count (G : nat) : Optional_int := Some (Z.of_nat G).
Coercion group_count : nat >-> Optional_int.

(** The size argument of [x.new_zeros], [x.new_ones] and [x.new_full],
    after torch's contract for sizes: [None] is not a size ([TypeError])
    and a negative size is refused ([RuntimeError]). *)
Definition new_size (line : nat) (dim_size : Optional_int) : result nat :=
  match dim_size with
  | None => Raise TypeError line
  | Some n =>
      if bool_decide (0 <= n)%Z then Ok (Z.to_nat n)
      else Raise RuntimeError line
  end.

(** [x.new_full((G, F), v)]. *)
Definition new_full (G F : nat) (v : float) : matrix :=
  replicate G (replicate F v).

(** Element-wise arithmetic; [mdiv] divides by a [G x 1] column. *)
Definition mmul (a b : matrix) : matrix :=
  zip_with (zip_with PrimFloat.mul) a b.

Definition msub (a b : matrix) : matrix :=
  zip_with (zip_with PrimFloat.sub) a b.

Definition mdiv (a : matrix) (count : list float) : matrix :=
  zip_with (fun row c => (fun v => v / c)%float <$> row) a count.

Definition mstd (var : matrix) : matrix :=
  (fun row : list float => Scalar.std_of_var <$> row) <$> var.

(** [out.masked_fill(mask.view(-1, 1), 0.0)]. *)
Definition masked_fill (out : matrix) (mask : list bool) : matrix :=
  zip_with (fun row (b : bool) => if b then (fun _ => 0%float) <$> row else row)
           out mask.

(** [self.scatter_add_(0, index, src)] on vectors: torch requires
    [len(index) <= len(src)] and every index value within [self]; entry
    [i] of [src] is added at position [index[i]]. *)
Fixpoint scatter_add_ (line : nat) (self : list float) (index : list Z)
    (src : list float) : result (list float) :=
  match index, src with
  | [], _ => Ok self
  | i :: index, s :: src =>
      if bool_decide (0 <= i < Z.of_nat (length self))%Z
      then scatter_add_ line (alter (fun c => c + s)%float (Z.to_nat i) self) index src
      else Raise RuntimeError line
  | _ :: _, [] => Raise RuntimeError line
  end.

(** [self.scatter_reduce_(0, index, src, reduce, include_self=True)] with
    [index] the column [index.view(-1, 1).expand(-1, num_feats)]: row [i]
    of [src] is combined into row [index[i]] of [self].  With no feature
    the expanded index has no element, and torch checks and does
    nothing. *)
Fixpoint scatter_reduce_rows (line : nat) (op : float -> float -> float)
    (self : matrix) (index : list Z) (src : matrix) : result matrix :=
  match index, src with
  | [], _ => Ok self
  | i :: index, row :: src =>
      if bool_decide (0 <= i < Z.of_nat (length self))%Z
      then scatter_reduce_rows line op
             (alter (fun o => zip_with op o row) (Z.to_nat i) self) index src
      else Raise RuntimeError line
  | _ :: _, [] => Raise RuntimeError line
  end.

Definition scatter_reduce_ (line : nat) (op : float -> float -> float)
    (self : matrix) (index : list Z) (num_feats : nat) (src : matrix)
  : result matrix :=
  if decide (num_feats = 0) then Ok self
  else scatter_reduce_rows line op self index src.

(** [mask[index] = False]: indexing accepts the values of [[-G, G)],
    the negative ones counting from the end. *)
Fixpoint index_put_false (line : nat) (mask : list bool) (index : list Z)
  : result (list bool) :=
  match index with
  | [] => Ok mask
  | i :: index =>
      let n := Z.of_nat (length mask) in
      if bool_decide (- n <= i < n)%Z
      then index_put_false line (<[Z.to_nat (i mod n) := false]> mask) index
      else Raise IndexError line
  end.

Definition reduce_fn (r : reduce) : float -> float -> float :=
  match r with
  | r_amin => Scalar.amin
  | r_amax => Scalar.amax
  | r_prod => PrimFloat.mul
  | r_sum | r_pow_sum => PrimFloat.add
  end.

(** A local variable that may not have been assigned. *)
Definition local {A} (line : nat) (v : option A) : result A :=
  match v with
  | Some a => Ok a
  | None => Raise UnboundLocalError line
  end.

(** [l[i]] on a Python list. *)
Definition list_get {A} (line : nat) (l : list A) (i : nat) : result A :=
  match l !! i with
  | Some a => Ok a
  | None => Raise IndexError line
  end.

(** A value of [outs] used as a tensor operand: [None] is a
    [TypeError]. *)
Definition operand (line : nat) (o : option matrix) : result matrix :=
  match o with
  | Some m => Ok m
  | None => Raise TypeError line
  end.

(** [outs[i] = m]. *)
Definition list_set {A} (line : nat) (l : list A) (i : nat) (a : A)
  : result (list A) :=
  if bool_decide (i < length l) then Ok (<[i := a]> l)
  else Raise IndexError line.

(** [torch.cat(outs, dim=-1)]. *)
Fixpoint tensors (line : nat) (outs : list (option matrix))
  : result (list matrix) :=
  match outs with
  | [] => Ok []
  | None :: _ => Raise TypeError line
  | Some m :: outs => let* ms := tensors line outs in Ok (m :: ms)
  end.

Definition cat (line : nat) (outs : list (option matrix)) : result matrix :=
  let* ms := tensors line outs in
  match ms with
  | [] => Raise RuntimeError line
  | m :: ms => Ok (foldl (zip_with app) m ms)
  end.

(** ** The forward pass *)

(** Modelled from the spec: [assert_index_present] of the base class
    [Aggregation], which is not part of the sources.  The group index is a
    required input of an invocation; the helper raises when it is
    absent. *)
Definition assert_index_present (line : nat) (index : option (list Z))
  : result unit :=
  match index with
  | Some _ => Ok ()
  | None => Raise NotImplementedError line
  end.

(** Modelled from the spec: [assert_two_dimensional_input] of the base
    class [Aggregation], which is not part of the sources.  It is the
    eager shape check of an invocation: a feature array that is not
    2-dimensional is an error.  The spec states no condition on [dim]. *)
Definition assert_two_dimensional_input (line : nat) (x : Tensor) (dim : Z)
  : result unit :=
  if bool_decide (Tensor_dim x = 2) then Ok () else Raise ValueError line.

(** Lines 158-167: the clamped count and the mask, each assigned or
    not. *)
Definition degree_stage (self : FusedAggregation) (N : nat) (index : list Z)
    (dim_size : Optional_int)
  : result (option (list float) * option (list bool)) :=
  if need_degree self then
    let* G := new_size 159 dim_size in
    let* count := scatter_add_ 160 (replicate G 0%float) index
                          (replicate N 1%float) in
    let mask :=
      if requires_mask self
      then Some ((fun c => c =? 0)%float <$> count) else None in
    Ok (Some (Scalar.clamp_min1 <$> count), mask)
  else if requires_mask self then
    let* G := new_size 166 dim_size in
    let* mask := index_put_false 167 (replicate G true) index in
    Ok (None, Some mask)
  else Ok (None, None).

Definition fill_value (reduce : reduce) : float :=
  match reduce with
  | r_amin => infinity
  | r_amax => neg_infinity
  | r_prod => 1%float
  | _ => 0%float
  end.

(** Lines 182-198: one base reduction. *)
Definition base_reduce (x : matrix) (index : list Z)
    (dim_size : Optional_int) (num_feats : nat)
    (mask : option (list bool)) (reduce : reduce) : result matrix :=
  let src := if decide (reduce = r_pow_sum) then mmul x x else x in
  let reduce := if decide (reduce = r_pow_sum) then r_sum else reduce in
  let fill_value := fill_value reduce in
  let* G := new_size 194 dim_size in
  let* out := scatter_reduce_ 195 (reduce_fn reduce)
                (new_full G num_feats fill_value) index num_feats src in
  if negb (fill_value =? 0)%float then
    let* mask := local 197 mask in
    Ok (masked_fill out mask)
  else Ok out.

(** Lines 177-198: the loop over [reduce_ops]. *)
Fixpoint base_loop (x : matrix) (index : list Z)
    (dim_size : Optional_int) (num_feats : nat)
    (mask : option (list bool)) (ops : list (option reduce))
  : result (list (option matrix)) :=
  match ops with
  | [] => Ok []
  | None :: ops =>
      let* outs := base_loop x index dim_size num_feats mask ops in
      Ok (None :: outs)
  | Some reduce :: ops =>
      let* out := base_reduce x index dim_size num_feats mask reduce in
      let* outs := base_loop x index dim_size num_feats mask ops in
      Ok (Some out :: outs)
  end.

(** Lines 203-212. *)
Definition mean_stage (self : FusedAggregation) (count : option (list float))
    (outs : list (option matrix)) : result (list (option matrix)) :=
  match aggr_index self !! MeanAggregation with
  | None => Ok outs
  | Some i =>
      let* lk := list_get 205 (lookup_ops self) i in
      let* sum_ := match lk with
                   | None => list_get 206 outs i
                   | Some (tmp_aggr, j) =>
                       if decide (tmp_aggr = SumAggregation)
                       then list_get 210 outs j
                       else Raise AssertionError 209
                   end in
      let* count := local 212 count in
      let* sum_ := operand 212 sum_ in
      list_set 212 outs i (Some (mdiv sum_ count))
  end.

(** Lines 218-220 and 239-241: a sum of the elements of its own, divided
    by the count; [line] is the line of the scatter. *)
Definition fresh_mean (line : nat) (x : matrix) (index : list Z)
    (dim_size : Optional_int) (num_feats : nat) (count : option (list float))
  : result matrix :=
  let* G := new_size (pred line) dim_size in
  let* mean := scatter_reduce_ line PrimFloat.add
                 (new_full G num_feats 0%float) index num_feats x in
  let* count := local (S line) count in
  Ok (mdiv mean count).

(** Lines 231 and 256: [(pow_sum / count) - (mean * mean)]. *)
Definition variance_of (line : nat) (pow_sum : option matrix)
    (count : option (list float)) (mean : option matrix) : result matrix :=
  let* count := local line count in
  let* pow_sum := operand line pow_sum in
  let* mean := operand line mean in
  Ok (msub (mdiv pow_sum count) (mmul mean mean)).

(** Lines 215-231. *)
Definition var_stage (self : FusedAggregation) (x : matrix) (index : list Z)
    (dim_size : Optional_int) (num_feats : nat) (count : option (list float))
    (outs : list (option matrix)) : result (list (option matrix)) :=
  match aggr_index self !! VarAggregation with
  | None => Ok outs
  | Some i =>
      let* lk := list_get 217 (lookup_ops self) i in
      let* mean := match lk with
                   | None =>
                       let* mean := fresh_mean 219 x index dim_size num_feats
                                      count in
                       Ok (Some mean)
                   | Some (tmp_aggr, j) =>
                       if decide (tmp_aggr = SumAggregation) then
                         let* sum_ := list_get 224 outs j in
                         let* count := local 224 count in
                         let* sum_ := operand 224 sum_ in
                         Ok (Some (mdiv sum_ count))
                       else if decide (tmp_aggr = MeanAggregation) then
                         list_get 226 outs j
                       else Raise NotImplementedError 228
                   end in
      let* pow_sum := list_get 230 outs i in
      let* var := variance_of 231 pow_sum count mean in
      list_set 231 outs i (Some var)
  end.

(** Lines 236-256: the variance the standard deviation is taken of. *)
Definition std_variance (x : matrix) (index : list Z)
    (dim_size : Optional_int) (num_feats : nat) (count : option (list float))
    (outs : list (option matrix)) (i : nat) (lk : option (Aggr * nat))
  : result matrix :=
  match lk with
  | None =>
      let* pow_sum := list_get 238 outs i in
      let* mean := fresh_mean 240 x index dim_size num_feats count in
      variance_of 256 pow_sum count (Some mean)
  | Some (tmp_aggr, j) =>
      if decide (tmp_aggr = VarAggregation) then
        let* var := list_get 245 outs j in
        match var with
        | Some var => Ok var
        | None => Raise UnboundLocalError 256
        end
      else if decide (tmp_aggr = SumAggregation) then
        let* pow_sum := list_get 247 outs i in
        let* sum_ := list_get 248 outs j in
        let* count' := local 248 count in
        let* sum_ := operand 248 sum_ in
        variance_of 256 pow_sum count (Some (mdiv sum_ count'))
      else if decide (tmp_aggr = MeanAggregation) then
        let* pow_sum := list_get 250 outs i in
        let* mean := list_get 251 outs j in
        variance_of 256 pow_sum count mean
      else Raise NotImplementedError 253
  end.

(** Lines 234-258. *)
Definition std_stage (self : FusedAggregation) (x : matrix) (index : list Z)
    (dim_size : Optional_int) (num_feats : nat) (count : option (list float))
    (outs : list (option matrix)) : result (list (option matrix)) :=
  match aggr_index self !! StdAggregation with
  | None => Ok outs
  | Some i =>
      let* lk := list_get 237 (lookup_ops self) i in
      let* var := std_variance x index dim_size num_feats count outs i lk in
      list_set 258 outs i (Some (mstd var))
  end.

(** Lines 158-258 on a 2-dimensional input: the list [outs] that is
    concatenated at the end. *)
Definition forward_outs (self : FusedAggregation) (num_feats : nat)
    (x : matrix) (index : list Z) (dim_size : Optional_int)
  : result (list (option matrix)) :=
  let* cm := degree_stage self (length x) index dim_size in
  let* outs := base_loop x index dim_size num_feats cm.2 (reduce_ops self) in
  let* outs := mean_stage self cm.1 outs in
  let* outs := var_stage self x index dim_size num_feats cm.1 outs in
  std_stage self x index dim_size num_feats cm.1 outs.

(** [FusedAggregation.forward]; the parameter [ptr] is not used by the
    body. *)
Definition forward (self : FusedAggregation) (x : Tensor)
    (index : option (list Z)) (dim_size : Optional_int) (dim : Z)
  : result matrix :=
  let* _u := assert_index_present 155 index in
  let* _u := assert_two_dimensional_input 156 x dim in
  match x, index with
  | Tensor2 num_feats rows, Some index =>
      let* outs := forward_outs self num_feats rows index dim_size in
      cat 262 outs
  | _, _ => Raise TypeError 156
  end.

(** ** Specification-side definitions *)

(** The plan entry of a fusable class, as a total function. *)
Definition entry (index : gmap Aggr nat) (cls : Aggr)
  : option reduce * option (Aggr * nat) :=
  match plan_entry index cls with
  | Ok e => e
  | Raise _ _ => (None, None)
  end.

(** The object a successful constructor returns. *)
Definition plan_of (aggrs : list Aggr) : FusedAggregation :=
  let d := build_aggr_index aggrs in
  {| aggr_cls := aggrs;
     aggr_index := d;
     need_degree := existsb DEGREE_BASED_AGGRS aggrs;
     requires_mask := existsb MASK_REQUIRED_AGGRS aggrs;
     reduce_ops := (fun c => (entry d c).1) <$> aggrs;
     lookup_ops := (fun c => (entry d c).2) <$> aggrs |}.

(** The reductions whose rows of empty groups are overwritten (line
    196). *)
Definition needs_mask (r : reduce) : bool :=
  negb (fill_value (if decide (r = r_pow_sum) then r_sum else r) =? 0)%float.

(** The exceptions of the reuse chain: the assertion of line 209 and the
    two [raise NotImplementedError] of lines 228 and 253. *)
Definition reuse_chain_error (e : exn) (line : nat) : Prop :=
  (e = AssertionError /\ line = 209) \/
  (e = NotImplementedError /\ (line = 228 \/ line = 253)).



Definition sf_nonneg (x : spec_float) : Prop :=
  match x with
  | S754_zero _ | S754_finite false _ _ | S754_infinity false => True
  | _ => False
  end.

Definition sf_pos (x : spec_float) : Prop :=
  match x with
  | S754_finite false _ _ | S754_infinity false => True
  | _ => False
  end.

Definition fnonneg (a : float) : Prop := sf_nonneg (Prim2SF a).
Definition fpos (a : float) : Prop := sf_pos (Prim2SF a).


(** A valid invocation: [x] is an [N x F] matrix, the group index has one
    value of [[0, G)] per row of [x]. *)
Definition valid_index (G : nat) (index : list Z) : Prop :=
  Forall (fun i => (0 <= i < Z.of_nat G)%Z) index.

Definition valid_input (F : nat) (x : matrix) (index : list Z) (G : nat)
  : Prop :=
  Forall (fun row => length row = F) x /\
  length index = length x /\
  valid_index G index.

(** Group [g] has no element. *)
Definition empty_group (index : list Z) (g : nat) : Prop :=
  Z.of_nat g ∉ index.

(** The scatter primitives on a valid index, as folds. *)
Definition scatter (op : float -> float -> float) (self : matrix)
    (index : list Z) (src : matrix) : matrix :=
  foldl (fun acc ir => alter (fun o => zip_with op o ir.2) (Z.to_nat ir.1) acc)
        self (zip index src).

Definition counts (G : nat) (index : list Z) : list float :=
  foldl (fun acc i => alter (fun c => c + 1)%float (Z.to_nat i) acc)
        (replicate G 0%float) index.

Definition clamped_count (G : nat) (index : list Z) : list float :=
  Scalar.clamp_min1 <$> counts G index.

Definition empty_mask (G : nat) (index : list Z) : list bool :=
  (fun g => bool_decide (empty_group index g)) <$> seq 0 G.

(** The result of one base reduction on a valid invocation. *)
Definition base_value (x : matrix) (index : list Z) (G F : nat) (r : reduce)
  : matrix :=
  let src := if decide (r = r_pow_sum) then mmul x x else x in
  let r' := if decide (r = r_pow_sum) then r_sum else r in
  let out := scatter (reduce_fn r') (new_full G F (fill_value r')) index src in
  if negb (fill_value r' =? 0)%float
  then masked_fill out (empty_mask G index) else out.

(** The value of each kind of aggregation, from the base reductions. *)
Definition mean_value (F : nat) (x : matrix) (index : list Z) (G : nat)
  : matrix :=
  mdiv (base_value x index G F r_sum) (clamped_count G index).

Definition var_value (F : nat) (x : matrix) (index : list Z) (G : nat)
  : matrix :=
  msub (mdiv (base_value x index G F r_pow_sum) (clamped_count G index))
       (mmul (mean_value F x index G) (mean_value F x index G)).

Definition aggregate (c : Aggr) (F : nat) (x : matrix) (index : list Z)
    (G : nat) : matrix :=
  match c with
  | SumAggregation => base_value x index G F r_sum
  | MeanAggregation => mean_value F x index G
  | MinAggregation => base_value x index G F r_amin
  | MaxAggregation => base_value x index G F r_amax
  | MulAggregation => base_value x index G F r_prod
  | VarAggregation => var_value F x index G
  | StdAggregation => mstd (var_value F x index G)
  | OtherAggregation => []
  end.

(** [outs] with the slot the dictionary records for class [c]
    overwritten. *)
Definition slot (index : gmap Aggr nat) (c : Aggr) (v : matrix)
    (outs : list (option matrix)) : list (option matrix) :=
  match index !! c with
  | Some i => <[i := Some v]> outs
  | None => outs
  end.

Definition base_outs (aggrs : list Aggr) (F : nat) (x : matrix)
    (index : list Z) (G : nat) : list (option matrix) :=
  (fun c => base_value x index G F <$> (entry (build_aggr_index aggrs) c).1)
    <$> aggrs.

Definition final_outs (aggrs : list Aggr) (F : nat) (x : matrix)
    (index : list Z) (G : nat) : list (option matrix) :=
  let d := build_aggr_index aggrs in
  slot d StdAggregation (aggregate StdAggregation F x index G)
    (slot d VarAggregation (aggregate VarAggregation F x index G)
       (slot d MeanAggregation (aggregate MeanAggregation F x index G)
          (base_outs aggrs F x index G))).

(** Column block [k] of an output whose blocks are [F] columns wide. *)
Definition block (F k : nat) (out : matrix) : matrix :=
  (fun row => take F (drop (k * F) row)) <$> out.

(** A [G x F] matrix. *)
Definition shape (G F : nat) (m : matrix) : Prop :=
  length m = G /\ Forall (fun row => length row = F) m.

(** Row [g] of a matrix (empty when out of range). *)
Definition row (g : nat) (m : matrix) : list float := default [] (m !! g).

(** The concatenation of a non-empty list of tensors along the feature
    axis. *)
Definition cat_value (ms : list matrix) : matrix :=
  match ms with
  | [] => []
  | m :: ms => foldl (zip_with app) m ms
  end.

(** ** Vocabulary of the plan *)

(** Entry [k] of the plan reuses the output slot of class [c]. *)
Definition reuses (self : FusedAggregation) (k : nat) (c : Aggr) : Prop :=
  exists j, lookup_ops self !! k = Some (Some (c, j)) /\
            aggr_index self !! c = Some j /\
            aggr_cls self !! j = Some c.

(** Entry [k] of the plan reuses no slot. *)
Definition no_reuse (self : FusedAggregation) (k : nat) : Prop :=
  lookup_ops self !! k = Some None.

(** The base reduction of entry [k]: [Some r], or [None] when the entry
    has no base reduction of its own. *)
Definition base_reduce_of (self : FusedAggregation) (k : nat)
    (r : option reduce) : Prop :=
  reduce_ops self !! k = Some r.

(** The exceptions of the tensor primitives and of the list accesses:
    none is an assertion or a [NotImplementedError]. *)
Definition benign (e : exn) (line : nat) : Prop :=
  e <> AssertionError /\ e <> NotImplementedError.

(** No exception of the reuse chain. *)
Definition chain_safe (e : exn) (line : nat) : Prop :=
  ~ reuse_chain_error e line.

(** The exceptions of the tensor primitives that consume the group index:
    the scatter of lines 160 and 195, the indexed assignment of line
    167. *)
Definition index_error (e : exn) (line : nat) : Prop :=
  (e = RuntimeError /\ (line = 160 \/ line = 195)) \/
  (e = IndexError /\ line = 167).

(** ** Vocabulary of the further properties *)

(** The stage a class is computed in: the base reductions first, then
    Mean, Variance and StdDev in this order (lines 202, 214, 233). *)
Definition stage_rank (c : Aggr) : nat :=
  match c with
  | MeanAggregation => 1
  | VarAggregation => 2
  | StdAggregation => 3
  | _ => 0
  end.

(** The rows of [src] the index assigns to group [g], in their order. *)
Definition group_rows (index : list Z) (src : matrix) (g : nat) : matrix :=
  snd <$> filter (fun ir : Z * list float => ir.1 = Z.of_nat g) (zip index src).

(** ** Each kind computed alone (C2)

    The reference of the equivalence property, written after the spec
    and not after the code: a kind "computed alone (independently,
    unfused)" is computed group by group ("reductions are computed
    independently per group"), with the grouped-reduce primitive of
    section 6, the table of section 4.2, the zero row of an empty group
    (section 3), the clamped count of the glossary and the formulas of
    section 4.3. *)

(** Section 6: [(values, group_index, op, group_count, fill_value) ->
    G x F array], "where unreferenced groups take [fill_value]". *)
Definition grouped_reduce (values : matrix) (group_index : list Z)
    (op : float -> float -> float) (G F : nat) (fill : float) : matrix :=
  (fun g => foldl (zip_with op) (replicate F fill)
                  (group_rows group_index values g)) <$> seq 0 G.

(** Section 3: "Output row for an empty group is the numeric zero
    vector". *)
Definition zero_empty_rows (group_index : list Z) (F : nat) (m : matrix)
  : matrix :=
  imap (fun g row => if bool_decide (empty_group group_index g)
                     then replicate F 0%float else row) m.

(** Glossary: "per-group element count with a minimum floor of 1". *)
Definition element_count (group_index : list Z) (g : nat) : float :=
  foldl (fun n _ => n + 1)%float 0%float
        (filter (fun i => i = Z.of_nat g) group_index).

Definition floor_counts (group_index : list Z) (G : nat) : list float :=
  (fun g => Scalar.clamp_min1 (element_count group_index g)) <$> seq 0 G.

(** Sections 4.2 and 4.3: the seven kinds. *)
Definition unfused (c : Aggr) (F : nat) (x : matrix) (index : list Z)
    (G : nat) : matrix :=
  let sum := grouped_reduce x index PrimFloat.add G F 0%float in
  let mean := mdiv sum (floor_counts index G) in
  let pow_sum := grouped_reduce (mmul x x) index PrimFloat.add G F 0%float in
  let variance := msub (mdiv pow_sum (floor_counts index G)) (mmul mean mean) in
  match c with
  | SumAggregation => sum
  | MeanAggregation => mean
  | MinAggregation =>
      zero_empty_rows index F (grouped_reduce x index Scalar.amin G F infinity)
  | MaxAggregation =>
      zero_empty_rows index F
        (grouped_reduce x index Scalar.amax G F neg_infinity)
  | MulAggregation =>
      zero_empty_rows index F (grouped_reduce x index PrimFloat.mul G F 1%float)
  | VarAggregation => variance
  | StdAggregation => mstd variance
  | OtherAggregation => []
  end.

(** Position [k] of the request has no base reduction of its own and is
    not the position the dictionary records for its class: nothing ever
    writes slot [k] of [outs]. *)
Definition dangling (self : FusedAggregation) (k : nat) : Prop :=
  exists c, aggr_cls self !! k = Some c /\
            reduce_ops self !! k = Some None /\
            aggr_index self !! c <> Some k.

(** The exceptions of a [dim_size] that is no size, [None] or a negative
    number: raised by [new_zeros] (line 159), [new_ones] (line 166) or
    [new_full] (line 194). *)
Definition size_error (e : exn) (line : nat) : Prop :=
  (e = TypeError \/ e = RuntimeError) /\
  (line = 159 \/ line = 166 \/ line = 194).

(** The exceptions an invocation can end with: the two checks of the
    base class (lines 155, 156), a [dim_size] that is no size, the
    primitives that consume the group index (lines 160, 167, 195) and the
    concatenation (line 262). *)
Definition invocation_error (e : exn) (line : nat) : Prop :=
  (e = NotImplementedError /\ line = 155) \/
  (e = ValueError /\ line = 156) \/
  size_error e line \/
  index_error e line \/
  (e = TypeError /\ line = 262).

(** The scatter of a [G x F] tensor is accepted. *)
Definition scatter_feasible (G F : nat) (index : list Z) (N : nat) : Prop :=
  F = 0 \/ (valid_index G index /\ length index <= N).

(** The slots of [outs] that hold a tensor: those of the entries with a
    base reduction, and those the dictionary records for the classes of
    [derived]. *)
Definition written (aggrs derived : list Aggr) (outs : list (option matrix))
  : Prop :=
  length outs = length aggrs /\
  forall (k : nat) c, aggrs !! k = Some c ->
    is_Some (entry (build_aggr_index aggrs) c).1 \/
    (c ∈ derived /\ build_aggr_index aggrs !! c = Some k) ->
    exists m, outs !! k = Some (Some m).
(** ** The error monad *)

Lemma bind_Ok {A B} (m : result A) (k : A -> result B) b :
  bind m k = Ok b <-> exists a, m = Ok a /\ k a = Ok b.
Proof.
  destruct m as [e l|a]; simpl; split.
  - discriminate.
  - intros (a & Ha & _). discriminate.
  - eauto.
  - intros (a' & [= <-] & Hk). exact Hk.
Qed.

Lemma bind_Raise {A B} (m : result A) (k : A -> result B) e l :
  bind m k = Raise e l <->
  m = Raise e l \/ exists a, m = Ok a /\ k a = Raise e l.
Proof.
  destruct m as [e' l'|a]; simpl; split.
  - intros [= -> ->]. by left.
  - intros [[= -> ->]|(a & Ha & _)]; [done|discriminate].
  - intros H. right. eauto.
  - intros [H|(a' & [= <-] & Hk)]; [discriminate|done].
Qed.

Lemma may_raise_bind {A B} P (m : result A) (k : A -> result B) :
  may_raise P m -> (forall a, m = Ok a -> may_raise P (k a)) ->
  may_raise P (bind m k).
Proof. destruct m as [e l|a]; simpl; auto. Qed.

Lemma may_raise_Ok {A} P (a : A) : may_raise P (Ok a).
Proof. exact I. Qed.

Lemma may_raise_weaken {A} (P Q : exn -> nat -> Prop) (m : result A) :
  (forall e l, P e l -> Q e l) -> may_raise P m -> may_raise Q m.
Proof. destruct m; simpl; auto. Qed.

(** ** The size argument *)

Lemma new_size_group_count line (G : nat) : new_size line G = Ok G.
Proof.
  unfold new_size, group_count. rewrite bool_decide_eq_true_2 by lia.
  by rewrite Nat2Z.id.
Qed.

Lemma new_size_Ok line dim_size (G : nat) :
  new_size line dim_size = Ok G -> dim_size = group_count G.
Proof.
  unfold new_size, group_count. destruct dim_size as [n|]; [|done].
  case_bool_decide; [|done]. intros [= <-]. by rewrite Z2Nat.id.
Qed.

(** ** The plan *)

Lemma enumerate_from_app {A} n (l k : list A) :
  enumerate_from n (l ++ k) =
  enumerate_from n l ++ enumerate_from (n + length l) k.
Proof.
  revert n. induction l as [|x l IH]; intros n; simpl.
  - by rewrite Nat.add_0_r.
  - rewrite IH. do 3 f_equal. lia.
Qed.

Lemma build_aggr_index_snoc l c :
  build_aggr_index (l ++ [c]) = <[c := length l]> (build_aggr_index l).
Proof.
  unfold build_aggr_index. by rewrite enumerate_from_app, foldl_app.
Qed.

Lemma aggr_index_Some l c i :
  build_aggr_index l !! c = Some i -> l !! i = Some c.
Proof.
  induction l as [|x l IH] using rev_ind.
  - unfold build_aggr_index. simpl. by rewrite lookup_empty.
  - rewrite build_aggr_index_snoc. intros H.
    destruct (decide (x = c)) as [->|Hne].
    + rewrite lookup_insert_eq in H. injection H as <-.
      by rewrite list_lookup_middle.
    + rewrite lookup_insert_ne in H by done.
      apply lookup_app_l_Some. auto.
Qed.

Lemma aggr_index_None l c :
  build_aggr_index l !! c = None <-> c ∉ l.
Proof.
  induction l as [|x l IH] using rev_ind.
  - unfold build_aggr_index. simpl. rewrite lookup_empty.
    split; [intros _; apply not_elem_of_nil | done].
  - rewrite build_aggr_index_snoc, not_elem_of_app, list_elem_of_singleton.
    destruct (decide (x = c)) as [->|Hne].
    + rewrite lookup_insert_eq. split; [done | intros [_ ?]; done].
    + rewrite lookup_insert_ne by done. rewrite IH. intuition congruence.
Qed.

(** The dictionary records the last occurrence of a class. *)
Lemma aggr_index_last l c (i : nat) :
  build_aggr_index l !! c = Some i <->
  l !! i = Some c /\ forall j : nat, i < j -> l !! j <> Some c.
Proof.
  induction l as [|x l IH] using rev_ind.
  - unfold build_aggr_index. simpl. rewrite lookup_empty. split; [done|].
    by intros [? _].
  - rewrite build_aggr_index_snoc.
    destruct (decide (x = c)) as [->|Hne].
    + rewrite lookup_insert_eq. split.
      * intros [= <-]. split; [by rewrite list_lookup_middle|].
        intros j Hj Hlk. apply lookup_lt_Some in Hlk.
        rewrite length_app in Hlk. simpl in Hlk. lia.
      * intros [Hi Hlast]. f_equal.
        apply lookup_lt_Some in Hi as Hlt. rewrite length_app in Hlt.
        simpl in Hlt. destruct (decide (i = length l)) as [|Hne]; [done|].
        exfalso. apply (Hlast (length l)); [lia|].
        by rewrite list_lookup_middle.
    + rewrite lookup_insert_ne by done. rewrite IH. split.
      * intros [Hi Hlast]. split; [by apply lookup_app_l_Some|].
        intros j Hj Hlk. apply lookup_app_Some in Hlk as [Hlk|[_ Hlk]].
        -- by apply (Hlast j).
        -- apply list_lookup_singleton_Some in Hlk as [_ ?]. done.
      * intros [Hi Hlast].
        apply lookup_app_Some in Hi as [Hi|[_ Hi]].
        -- split; [done|]. intros j Hj Hlk. apply (Hlast j Hj).
           by apply lookup_app_l_Some.
        -- apply list_lookup_singleton_Some in Hi as [_ ?]. done.
Qed.

Lemma aggr_index_is_Some l c :
  is_Some (build_aggr_index l !! c) <-> c ∈ l.
Proof.
  rewrite <- not_eq_None_Some, aggr_index_None.
  destruct (decide (c ∈ l)); naive_solver.
Qed.

Lemma aggr_index_NoDup l c i :
  NoDup l -> l !! i = Some c -> build_aggr_index l !! c = Some i.
Proof.
  induction l as [|x l IH] using rev_ind; [done|].
  rewrite NoDup_app. intros (Hl & Hx & _) Hi.
  rewrite build_aggr_index_snoc.
  destruct (decide (i < length l)) as [Hlt|Hge].
  - rewrite lookup_app_l in Hi by done.
    assert (x <> c).
    { intros ->. apply (Hx c); [by eapply list_elem_of_lookup_2 | set_solver]. }
    rewrite lookup_insert_ne by done. auto.
  - apply lookup_lt_Some in Hi as Hlen. rewrite length_app in Hlen. simpl in Hlen.
    assert (i = length l) as -> by lia.
    rewrite list_lookup_middle in Hi by done. injection Hi as ->.
    by rewrite lookup_insert_eq.
Qed.

Lemma plan_entry_fusable index c :
  FUSABLE_AGGRS c = true -> plan_entry index c = Ok (entry index c).
Proof.
  unfold entry, plan_entry.
  destruct c; try discriminate; intros _; simpl;
    repeat destruct (index !! _); reflexivity.
Qed.

Lemma plan_loop_fusable index l :
  forallb FUSABLE_AGGRS l = true ->
  plan_loop index l = Ok ((fun c => (entry index c).1) <$> l,
                          (fun c => (entry index c).2) <$> l).
Proof.
  induction l as [|c l IH]; simpl; [done|].
  intros [Hc Hl]%andb_prop.
  by rewrite plan_entry_fusable, IH.
Qed.

(** What a successful constructor returns. *)
Lemma init_Ok aggrs self :
  init aggrs = Ok self ->
  aggrs <> [] /\ forallb FUSABLE_AGGRS aggrs = true /\
  self = plan_of aggrs.
Proof.
  unfold init. case_bool_decide as Hlen; [done|].
  destruct (forallb FUSABLE_AGGRS aggrs) eqn:Hf; simpl; [|done].
  rewrite plan_loop_fusable by done. simpl. intros [= <-].
  split_and!; [|done..]. by intros ->.
Qed.

Lemma init_fusable aggrs :
  aggrs <> [] -> forallb FUSABLE_AGGRS aggrs = true ->
  init aggrs = Ok (plan_of aggrs).
Proof.
  intros Hne Hf. unfold init. rewrite bool_decide_eq_false_2.
  - rewrite Hf. simpl. by rewrite plan_loop_fusable.
  - by destruct aggrs.
Qed.
(** ** Rounding never changes the sign

    The facts on binary64 arithmetic the engine relies on: a sum of
    non-negative numbers with a positive one is positive, a square root is
    not negative. *)

Lemma shr_1_div2 r : (0 <= shr_m r)%Z -> shr_m (shr_1 r) = Z.div2 (shr_m r).
Proof.
  destruct r as [m b s]. simpl. intros Hm.
  destruct m as [|[p|p|]|p]; try reflexivity; lia.
Qed.

Lemma iter_pos_shr_1 n r :
  (0 <= shr_m r)%Z ->
  shr_m (SpecFloat.iter_pos shr_1 n r) = Z.shiftr (shr_m r) (Zpos n).
Proof.
  revert r. induction n as [n IH|n IH|]; intros r Hr; simpl SpecFloat.iter_pos.
  - assert (0 <= shr_m (shr_1 r))%Z as H1.
    { rewrite shr_1_div2 by done. by apply Z.div2_nonneg. }
    assert (0 <= shr_m (SpecFloat.iter_pos shr_1 n (shr_1 r)))%Z as H2.
    { rewrite IH by done. by apply Z.shiftr_nonneg. }
    rewrite IH, IH, shr_1_div2 by done.
    rewrite Z.div2_spec, !Z.shiftr_shiftr by lia. f_equal. lia.
  - assert (0 <= shr_m (SpecFloat.iter_pos shr_1 n r))%Z as H2.
    { rewrite IH by done. by apply Z.shiftr_nonneg. }
    rewrite IH, IH by done.
    rewrite !Z.shiftr_shiftr by lia. f_equal. lia.
  - rewrite shr_1_div2 by done. by rewrite Z.div2_spec.
Qed.

Lemma shr_record_of_loc_m m l : shr_m (shr_record_of_loc m l) = m.
Proof. by destruct l as [|[]]. Qed.

Lemma digits2_pos_bound p : (2 ^ (Zpos (digits2_pos p) - 1) <= Zpos p)%Z.
Proof.
  induction p as [p IH|p IH|]; simpl digits2_pos.
  - rewrite Pos2Z.inj_succ.
    replace (Z.succ (Zpos (digits2_pos p)) - 1)%Z
      with (Z.succ (Zpos (digits2_pos p) - 1))%Z by lia.
    rewrite Z.pow_succ_r by lia. lia.
  - rewrite Pos2Z.inj_succ.
    replace (Z.succ (Zpos (digits2_pos p)) - 1)%Z
      with (Z.succ (Zpos (digits2_pos p) - 1))%Z by lia.
    rewrite Z.pow_succ_r by lia. lia.
  - simpl. lia.
Qed.

Section Rounding.
Let emin := SpecFloat.emin prec emax.


Lemma shr_fexp_pos m e l :
  (0 < m)%Z -> (emin <= e)%Z ->
  (0 < shr_m (shr_fexp prec emax m e l).1)%Z /\
  (emin <= (shr_fexp prec emax m e l).2)%Z.
Proof.
  intros Hm He. unfold shr_fexp, shr.
  destruct (fexp prec emax (Zdigits2 m + e) - e)%Z as [|n|n] eqn:Hn; simpl;
    rewrite ?shr_record_of_loc_m; try done.
  rewrite iter_pos_shr_1, shr_record_of_loc_m
    by (rewrite shr_record_of_loc_m; lia).
  split; [|lia].
  destruct m as [|p|p]; try lia.
  unfold fexp in Hn. simpl Zdigits2 in Hn.
  fold emin in Hn.
  assert (Zpos n = Zpos (digits2_pos p) - prec)%Z as Hn' by lia.
  rewrite Z.shiftr_div_pow2 by lia.
  apply Z.div_str_pos. split; [apply Z.pow_pos_nonneg; lia|].
  etrans; [|apply digits2_pos_bound].
  apply Z.pow_le_mono_r; [lia|]. rewrite Hn'. unfold prec. lia.
Qed.

Lemma round_nearest_even_ge m l : (m <= round_nearest_even m l)%Z.
Proof. destruct l as [|[]]; simpl; try lia. destruct (Z.even m); lia. Qed.


Lemma binary_round_aux_pos sx m e l :
  (0 < m)%Z -> (emin <= e)%Z ->
  match binary_round_aux prec emax sx m e l with
  | S754_finite s _ _ | S754_infinity s => s = sx
  | _ => False
  end.
Proof.
  intros Hm He. unfold binary_round_aux.
  pose proof (shr_fexp_pos m e l Hm He) as [H1 H1'].
  destruct (shr_fexp prec emax m e l) as [r1 e1]. simpl in H1, H1'.
  pose proof (round_nearest_even_ge (shr_m r1) (loc_of_shr_record r1)) as H2.
  pose proof (shr_fexp_pos (round_nearest_even (shr_m r1) (loc_of_shr_record r1))
                e1 loc_Exact ltac:(lia) H1') as [H3 _].
  destruct (shr_fexp prec emax _ e1 loc_Exact) as [r2 e2]. simpl in H3.
  destruct (shr_m r2); simpl; first [lia | by destruct (_ <=? _)%Z].
Qed.

Lemma binary_round_pos m e :
  (emin <= e)%Z -> sf_pos (binary_round prec emax false m e).
Proof.
  intros He. unfold binary_round.
  destruct (shl_align m e _) as [mz ez] eqn:Hal.
  assert (emin <= ez)%Z as Hez.
  { unfold shl_align in Hal.
    destruct (_ - e)%Z eqn:Hd; injection Hal as <- <-; try done.
    unfold fexp. fold emin. lia. }
  pose proof (binary_round_aux_pos false (Zpos mz) ez loc_Exact ltac:(lia) Hez) as H.
  destruct (binary_round_aux _ _ _ _ _ _) as [| [] | | [] ? ?]; done.
Qed.

Lemma valid_binary_emin s m e :
  valid_binary (S754_finite s m e) = true -> (emin <= e)%Z.
Proof.
  simpl. unfold bounded, canonical_mantissa.
  intros [H _]%andb_prop. apply Z.eqb_eq in H.
  unfold fexp in H. fold emin in H. lia.
Qed.

Lemma SFadd_pos x y :
  valid_binary x = true -> valid_binary y = true ->
  sf_nonneg x -> sf_pos y -> sf_pos (SFadd prec emax x y).
Proof.
  intros Vx Vy Hx Hy.
  destruct x as [sx|[]| |[] mx ex], y as [sy|[]| |[] my ey]; try done.
  simpl. apply valid_binary_emin in Vx, Vy.
  destruct (shl_align mx ex _) as [ax ?], (shl_align my ey _) as [ay ?].
  simpl. apply binary_round_pos. lia.
Qed.

End Rounding.

Lemma fpos_fnonneg a : fpos a -> fnonneg a.
Proof. unfold fpos, fnonneg. by destruct (Prim2SF a) as [|[]| |[] ? ?]. Qed.

Lemma add_fpos a b : fnonneg a -> fpos b -> fpos (a + b).
Proof.
  unfold fnonneg, fpos. rewrite FloatAxioms.add_spec.
  apply SFadd_pos; apply Prim2SF_valid.
Qed.


Lemma Prim2SF_zero : Prim2SF 0 = S754_zero false.
Proof. reflexivity. Qed.


Lemma fpos_eqb_zero a : fpos a -> (a =? 0)%float = false.
Proof.
  unfold fpos. rewrite FloatAxioms.eqb_spec, Prim2SF_zero.
  by destruct (Prim2SF a) as [|[]| |[] ? ?].
Qed.

Lemma SFcompare_refl x : x <> S754_nan -> SFcompare x x = Some Eq.
Proof.
  destruct x as [s|[]| |[] m e]; try done; intros _; simpl;
    rewrite Z.compare_refl, Pos.compare_cont_refl; done.
Qed.

Lemma SFcompare_antisym x y :
  SFcompare y x = CompOpp <$> SFcompare x y.
Proof.
  destruct x as [sx|[]| |[] mx ex], y as [sy|[]| |[] my ey]; try done; simpl;
    rewrite (Z.compare_antisym ey ex);
    destruct (ey ?= ex)%Z eqn:He; simpl; try done;
    rewrite (Pos.compare_cont_antisym mx my Eq); simpl;
    by rewrite ?CompOpp_involutive.
Qed.

Lemma is_nan_false a : Scalar.is_nan a = false <-> Prim2SF a <> S754_nan.
Proof.
  unfold Scalar.is_nan. rewrite FloatAxioms.eqb_spec. unfold SFeqb. split.
  - intros H Hn. rewrite Hn in H. done.
  - intros H. by rewrite SFcompare_refl.
Qed.


Lemma nonneg_not_nan a : fnonneg a -> Scalar.is_nan a = false.
Proof.
  unfold fnonneg. intros H. apply is_nan_false. by destruct (Prim2SF a).
Qed.

Lemma relu_nonneg v : Scalar.is_nan v = false -> fnonneg (Scalar.relu v).
Proof.
  intros Hv%is_nan_false. unfold Scalar.relu.
  destruct (v <? 0)%float eqn:Hlt; [done|].
  rewrite FloatAxioms.ltb_spec, Prim2SF_zero in Hlt. unfold fnonneg.
  by destruct (Prim2SF v) as [|[]| |[] ? ?].
Qed.

Lemma ltb_false_leb a b :
  Scalar.is_nan a = false -> Scalar.is_nan b = false ->
  (a <? b)%float = false -> (b <=? a)%float = true.
Proof.
  intros Ha%is_nan_false Hb%is_nan_false.
  rewrite FloatAxioms.ltb_spec, FloatAxioms.leb_spec. unfold SFltb, SFleb.
  rewrite (SFcompare_antisym (Prim2SF a) (Prim2SF b)).
  destruct (SFcompare (Prim2SF a) (Prim2SF b)) as [[]|] eqn:Hc; simpl; try done.
  by destruct (Prim2SF a), (Prim2SF b).
Qed.

Lemma clamp_min1_ge c :
  Scalar.is_nan c = false -> (1 <=? Scalar.clamp_min1 c)%float = true.
Proof.
  intros Hc. unfold Scalar.clamp_min1.
  destruct (c <? 1)%float eqn:Hlt; [done|].
  by apply ltb_false_leb.
Qed.

Lemma clamp_min1_nonzero c : (Scalar.clamp_min1 c =? 0)%float = false.
Proof.
  unfold Scalar.clamp_min1. destruct (c <? 1)%float eqn:Hlt; [done|].
  rewrite FloatAxioms.eqb_spec, Prim2SF_zero. rewrite FloatAxioms.ltb_spec in Hlt.
  change (Prim2SF 1) with (S754_finite false 4503599627370496 (-52)) in Hlt.
  by destruct (Prim2SF c) as [|[]| |[] ? ?].
Qed.

Lemma fpos_eps : fpos Scalar.eps.
Proof. by vm_compute. Qed.

Lemma fpos_one : fpos 1.
Proof. by vm_compute. Qed.



(** ** The torch primitives on a valid index *)

Lemma scatter_reduce_rows_valid line op self index src :
  valid_index (length self) index -> length index <= length src ->
  scatter_reduce_rows line op self index src = Ok (scatter op self index src).
Proof.
  unfold scatter, valid_index.
  revert self src. induction index as [|i index IH]; intros self src Hv Hlen.
  - by destruct src.
  - destruct src as [|row src]; simpl in *; [lia|].
    apply Forall_cons in Hv as [Hi Hv].
    rewrite bool_decide_eq_true_2 by done.
    apply IH; [by rewrite length_alter | lia].
Qed.

Lemma scatter_reduce_rows_invalid line op self index src :
  ~ (valid_index (length self) index /\ length index <= length src) ->
  scatter_reduce_rows line op self index src = Raise RuntimeError line.
Proof.
  unfold valid_index.
  revert self src. induction index as [|i index IH]; intros self src Hv.
  - destruct Hv. split; [constructor | simpl; lia].
  - destruct src as [|row src]; simpl; [done|].
    case_bool_decide as Hi; [|done].
    apply IH. rewrite length_alter. intros [Hv' Hlen]. apply Hv.
    split; [by constructor | simpl; lia].
Qed.

(** Without feature a scatter leaves the rows, all empty, as they
    are. *)
Lemma scatter_no_feats op G v index src :
  scatter op (new_full G 0 v) index src = new_full G 0 v.
Proof.
  unfold scatter, new_full. generalize (zip index src) as l.
  induction l as [|[i row] l IH]; simpl; [done|].
  rewrite <- IH at 2. f_equal. apply list_eq. intros g.
  destruct (decide (Z.to_nat i = g)) as [<-|Hne].
  - rewrite list_lookup_alter_eq.
    destruct (replicate G _ !! Z.to_nat i) as [o|] eqn:Ho; [|done].
    apply lookup_replicate in Ho as [-> _]. done.
  - by rewrite list_lookup_alter_ne.
Qed.

Lemma scatter_reduce_valid line op G F v index src :
  valid_index G index -> length index <= length src ->
  scatter_reduce_ line op (new_full G F v) index F src =
  Ok (scatter op (new_full G F v) index src).
Proof.
  intros Hv Hlen. unfold scatter_reduce_.
  destruct (decide (F = 0)) as [->|HF].
  - by rewrite scatter_no_feats.
  - apply scatter_reduce_rows_valid; [|done].
    unfold new_full. by rewrite length_replicate.
Qed.

Lemma scatter_reduce_invalid line op G F v index src :
  0 < F -> ~ (valid_index G index /\ length index <= length src) ->
  scatter_reduce_ line op (new_full G F v) index F src =
  Raise RuntimeError line.
Proof.
  intros HF Hinv. unfold scatter_reduce_.
  rewrite decide_False by lia. apply scatter_reduce_rows_invalid.
  unfold new_full. by rewrite length_replicate.
Qed.

Lemma scatter_add_valid line self index N :
  valid_index (length self) index -> length index <= N ->
  scatter_add_ line self index (replicate N 1%float) =
  Ok (foldl (fun acc i => alter (fun c => c + 1)%float (Z.to_nat i) acc)
            self index).
Proof.
  unfold valid_index.
  revert self N. induction index as [|i index IH]; intros self N Hv Hlen.
  - by destruct N.
  - destruct N as [|N]; simpl in *; [lia|].
    apply Forall_cons in Hv as [Hi Hv].
    rewrite bool_decide_eq_true_2 by done.
    apply IH; [by rewrite length_alter | lia].
Qed.


Lemma index_put_false_valid line mask index :
  valid_index (length mask) index ->
  index_put_false line mask index =
  Ok (foldl (fun m i => <[Z.to_nat i := false]> m) mask index).
Proof.
  unfold valid_index.
  revert mask. induction index as [|i index IH]; intros mask Hv; [done|].
  apply Forall_cons in Hv as [Hi Hv]. simpl.
  rewrite bool_decide_eq_true_2 by lia.
  rewrite Z.mod_small by done.
  apply IH. by rewrite length_insert.
Qed.

Lemma index_put_false_may_raise line mask index :
  may_raise (fun e l => e = IndexError /\ l = line)
            (index_put_false line mask index).
Proof.
  revert mask. induction index as [|i index IH]; intros mask; simpl; [done|].
  case_bool_decide; [apply IH | done].
Qed.

(** *** Shapes *)

Lemma length_scatter op self index src :
  length (scatter op self index src) = length self.
Proof.
  unfold scatter. generalize (zip index src) as l. intros l.
  revert self. induction l as [|ir l IH]; intros self; simpl; [done|].
  by rewrite IH, length_alter.
Qed.

Lemma length_counts G index : length (counts G index) = G.
Proof.
  unfold counts. rewrite <- (length_replicate G 0%float) at 2.
  generalize (replicate G 0%float) as acc.
  induction index as [|i index IH]; intros acc; simpl; [done|].
  by rewrite IH, length_alter.
Qed.

Lemma length_clamped_count G index : length (clamped_count G index) = G.
Proof. unfold clamped_count. by rewrite length_fmap, length_counts. Qed.

Lemma length_empty_mask G index : length (empty_mask G index) = G.
Proof. unfold empty_mask. by rewrite length_fmap, length_seq. Qed.

Lemma scatter_rows op self index src F :
  Forall (fun row => length row = F) self ->
  Forall (fun row => length row = F) src ->
  Forall (fun row => length row = F) (scatter op self index src).
Proof.
  unfold scatter. intros Hself Hsrc.
  assert (Forall (fun ir : Z * list float => length ir.2 = F) (zip index src)) as Hz.
  { apply Forall_forall. intros [i row] Hin. simpl.
    apply elem_of_zip_r in Hin. by eapply Forall_forall in Hsrc. }
  revert self Hself. induction Hz as [|[i row] l Hrow Hl IH]; intros self Hself;
    simpl; [done|].
  apply IH. apply Forall_alter; [done|].
  intros o Hin Ho. simpl in *. rewrite length_zip_with. lia.
Qed.

(** A row no element is scattered to is left as it is. *)
Lemma scatter_untouched op self index src g :
  valid_index (length self) index -> empty_group index g ->
  scatter op self index src !! g = self !! g.
Proof.
  unfold scatter, valid_index, empty_group.
  revert self src. induction index as [|i index IH]; intros self src Hv Hg;
    [done|].
  destruct src as [|row src]; [done|]. simpl.
  apply Forall_cons in Hv as [Hi Hv]. apply not_elem_of_cons in Hg as [Hne Hg].
  rewrite IH by (rewrite ?length_alter; done).
  apply list_lookup_alter_ne. lia.
Qed.

(** ** The count and the mask *)

Lemma foldl_counts_lookup (acc : list float) (index : list Z) (g : nat) c :
  Forall (fun i => (0 <= i)%Z) index ->
  (forall (g : nat) c, acc !! g = Some c -> fnonneg c) ->
  foldl (fun acc i => alter (fun c => c + 1)%float (Z.to_nat i) acc) acc index
    !! g = Some c ->
  fnonneg c /\
  (Z.of_nat g ∈ index -> fpos c) /\
  (Z.of_nat g ∉ index -> acc !! g = Some c).
Proof.
  revert acc. induction index as [|i index IH]; intros acc Hpos Hacc Hc.
  - simpl in Hc. split_and!; [by eapply Hacc | by intros ?%elem_of_nil | done].
  - apply Forall_cons in Hpos as [Hi Hpos]. simpl in Hc.
    assert (forall g c,
      alter (fun c => c + 1)%float (Z.to_nat i) acc !! g = Some c -> fnonneg c)
      as Hacc'.
    { intros g' c'. destruct (decide (Z.to_nat i = g')) as [<-|Hne].
      - rewrite list_lookup_alter_eq.
        destruct (acc !! Z.to_nat i) as [c0|] eqn:H0; [|done].
        intros [= <-]. apply fpos_fnonneg, add_fpos; [by eapply Hacc|].
        apply fpos_one.
      - rewrite list_lookup_alter_ne by done. apply Hacc. }
    destruct (IH _ Hpos Hacc' Hc) as (H1 & H2 & H3).
    split_and!; [done| |].
    + intros Hin. destruct (decide (Z.of_nat g ∈ index)) as [|Hnin]; [auto|].
      apply elem_of_cons in Hin as [Heq|?]; [|done].
      specialize (H3 Hnin). subst i. rewrite Nat2Z.id in H3.
      rewrite list_lookup_alter_eq in H3.
      destruct (acc !! g) as [c0|] eqn:H0; [|done].
      injection H3 as <-. apply add_fpos; [by eapply Hacc | apply fpos_one].
    + intros [Hne Hnin]%not_elem_of_cons. specialize (H3 Hnin).
      rewrite list_lookup_alter_ne in H3 by lia. done.
Qed.

Lemma valid_index_nonneg G index :
  valid_index G index -> Forall (fun i => (0 <= i)%Z) index.
Proof.
  intros H. eapply Forall_impl; [exact H|]. intros i Hi. simpl in Hi. lia.
Qed.

Lemma replicate_zero_fnonneg G (g : nat) c :
  replicate G 0%float !! g = Some c -> fnonneg c.
Proof. by intros [-> _]%lookup_replicate. Qed.

Lemma counts_fnonneg G index (g : nat) c :
  valid_index G index -> counts G index !! g = Some c -> fnonneg c.
Proof.
  intros Hv%valid_index_nonneg Hc.
  by apply (foldl_counts_lookup _ _ _ _ Hv (replicate_zero_fnonneg G)) in Hc
    as (? & _).
Qed.

Lemma counts_nonempty G index (g : nat) c :
  valid_index G index -> ~ empty_group index g ->
  counts G index !! g = Some c -> fpos c.
Proof.
  unfold empty_group. intros Hv%valid_index_nonneg Hg Hc.
  apply (foldl_counts_lookup _ _ _ _ Hv (replicate_zero_fnonneg G)) in Hc
    as (_ & H & _).
  apply H. by destruct (decide (Z.of_nat g ∈ index)).
Qed.

Lemma counts_empty G index g :
  valid_index G index -> g < G -> empty_group index g ->
  counts G index !! g = Some 0%float.
Proof.
  intros Hv%valid_index_nonneg Hg Hemp.
  destruct (counts G index !! g) as [c|] eqn:Hc.
  - apply (foldl_counts_lookup _ _ _ _ Hv (replicate_zero_fnonneg G)) in Hc
      as (_ & _ & H).
    specialize (H Hemp). apply lookup_replicate in H as [Hc0 _]. congruence.
  - apply lookup_ge_None in Hc. rewrite length_counts in Hc. lia.
Qed.

Lemma count_mask G index :
  valid_index G index ->
  (fun c => c =? 0)%float <$> counts G index = empty_mask G index.
Proof.
  intros Hv. apply list_eq_same_length with G.
  - apply length_empty_mask.
  - by rewrite length_fmap, length_counts.
  - intros g b b' Hg. unfold empty_mask.
    rewrite !list_lookup_fmap, lookup_seq_lt by done. simpl.
    destruct (counts G index !! g) as [c|] eqn:Hc; simpl; [|done].
    intros [= <-] [= <-].
    destruct (decide (empty_group index g)) as [Hemp|Hne].
    + rewrite counts_empty in Hc by done. injection Hc as <-.
      by rewrite bool_decide_eq_true_2.
    + rewrite bool_decide_eq_false_2 by done.
      apply fpos_eqb_zero. by eapply counts_nonempty.
Qed.

Lemma foldl_put_lookup (acc : list bool) (index : list Z) (g : nat) :
  Forall (fun i => (0 <= i)%Z) index ->
  foldl (fun m i => <[Z.to_nat i := false]> m) acc index !! g =
  (fun b => b && bool_decide (empty_group index g)) <$> acc !! g.
Proof.
  unfold empty_group.
  revert acc. induction index as [|i index IH]; intros acc Hpos; simpl.
  - destruct (acc !! g) as [b|]; simpl; [|done].
    by rewrite andb_true_r.
  - apply Forall_cons in Hpos as [Hi Hpos]. rewrite IH by done.
    destruct (decide (Z.to_nat i = g)) as [<-|Hne].
    + rewrite list_lookup_insert. rewrite Z2Nat.id by done.
      destruct (decide (_ /\ _)) as [[_ Hlt]|Hlt].
      * simpl. rewrite (bool_decide_eq_false_2 (i ∉ i :: index)) by set_solver.
        destruct (lookup_lt_is_Some_2 _ _ Hlt) as [b Hb]. rewrite Hb.
        simpl. by rewrite andb_false_r.
      * destruct (acc !! Z.to_nat i) as [b|] eqn:Hb; [|done].
        apply lookup_lt_Some in Hb. lia.
    + rewrite list_lookup_insert_ne by done.
      destruct (acc !! g) as [b|]; simpl; [|done]. do 2 f_equal.
      apply bool_decide_ext. rewrite not_elem_of_cons. split; [|by intros [_ ?]].
      intros ?. split; [lia|done].
Qed.

Lemma put_mask G index :
  valid_index G index ->
  foldl (fun m i => <[Z.to_nat i := false]> m) (replicate G true) index =
  empty_mask G index.
Proof.
  intros Hv%valid_index_nonneg. apply list_eq. intros g.
  rewrite foldl_put_lookup by done. unfold empty_mask.
  rewrite list_lookup_fmap.
  destruct (decide (g < G)) as [Hg|Hg].
  - by rewrite lookup_replicate_2, lookup_seq_lt.
  - rewrite lookup_seq_ge by lia.
    by rewrite (proj1 (lookup_replicate_None _ _ _)) by lia.
Qed.

(** On a valid index the count is assigned when a degree-based kind is
    requested, and the mask when a kind that needs it is. *)
Lemma degree_stage_valid self N index G :
  valid_index G index -> length index <= N ->
  degree_stage self N index G =
  Ok (if need_degree self then Some (clamped_count G index) else None,
      if requires_mask self then Some (empty_mask G index) else None).
Proof.
  intros Hv Hlen. unfold degree_stage.
  rewrite !new_size_group_count. cbn [bind].
  destruct (need_degree self).
  - rewrite scatter_add_valid by (rewrite ?length_replicate; done). simpl.
    fold (counts G index). rewrite count_mask by done. done.
  - destruct (requires_mask self); [|done].
    rewrite index_put_false_valid by (rewrite ?length_replicate; done).
    simpl. by rewrite put_mask.
Qed.

(** The clamped count: at least one, and one for a group without
    element. *)
Lemma clamped_count_ge_1 G index (g : nat) c :
  valid_index G index -> clamped_count G index !! g = Some c ->
  (1 <=? c)%float = true.
Proof.
  unfold clamped_count. rewrite list_lookup_fmap. intros Hv.
  destruct (counts G index !! g) as [c0|] eqn:Hc; [|done].
  intros [= <-]. apply clamp_min1_ge, nonneg_not_nan.
  by eapply counts_fnonneg.
Qed.

Lemma clamped_count_empty G index g :
  valid_index G index -> g < G -> empty_group index g ->
  clamped_count G index !! g = Some 1%float.
Proof.
  intros Hv Hg Hemp. unfold clamped_count.
  by rewrite list_lookup_fmap, counts_empty.
Qed.

(** ** The base reductions *)

#[local] Arguments base_value : simpl never.
#[local] Arguments clamped_count : simpl never.
#[local] Arguments empty_mask : simpl never.
#[local] Arguments mean_value : simpl never.
#[local] Arguments var_value : simpl never.

Lemma length_mmul a b : length (mmul a b) = min (length a) (length b).
Proof. apply length_zip_with. Qed.

Lemma base_reduce_valid x index G F mask r :
  valid_index G index -> length index <= length x ->
  (needs_mask r = true -> mask = Some (empty_mask G index)) ->
  base_reduce x index G F mask r = Ok (base_value x index G F r).
Proof.
  intros Hv Hlen Hmask. unfold base_reduce, base_value.
  rewrite new_size_group_count. cbn [bind].
  rewrite scatter_reduce_valid; cycle 1.
  - done.
  - destruct (decide (r = r_pow_sum)); [rewrite length_mmul|]; lia.
  - simpl. fold (needs_mask r). destruct (needs_mask r); [|done].
    by rewrite Hmask.
Qed.

Lemma base_loop_valid x index G F mask (ops : list (option reduce)) :
  valid_index G index -> length index <= length x ->
  (forall r, Some r ∈ ops -> needs_mask r = true ->
             mask = Some (empty_mask G index)) ->
  base_loop x index G F mask ops =
  Ok ((fun o : option reduce => base_value x index G F <$> o) <$> ops).
Proof.
  intros Hv Hlen. induction ops as [|[r|] ops IH]; intros Hmask; simpl.
  - done.
  - rewrite base_reduce_valid; [|done..|]; simpl.
    + rewrite IH; [done|]. intros r' Hin. apply Hmask. by right.
    + apply Hmask. by left.
  - rewrite IH; [done|]. intros r' Hin. apply Hmask. by right.
Qed.

Lemma entry_needs_mask d c r :
  (entry d c).1 = Some r -> needs_mask r = true ->
  MASK_REQUIRED_AGGRS c = true.
Proof.
  unfold entry, plan_entry.
  destruct c; simpl; repeat destruct (d !! _); simpl;
    intros [= <-]; done.
Qed.

Lemma existsb_elem_of {A} (f : A -> bool) (l : list A) a :
  a ∈ l -> f a = true -> existsb f l = true.
Proof.
  intros Hin Hf. apply existsb_exists. exists a.
  split; [by apply list_elem_of_In | done].
Qed.

Lemma base_loop_plan aggrs F x index G :
  valid_index G index -> length index <= length x ->
  base_loop x index G F
    (if requires_mask (plan_of aggrs) then Some (empty_mask G index) else None)
    (reduce_ops (plan_of aggrs)) = Ok (base_outs aggrs F x index G).
Proof.
  intros Hv Hlen. rewrite base_loop_valid; [|done..|].
  - unfold base_outs. simpl. by rewrite <- list_fmap_compose.
  - simpl. intros r [c [Hr Hc]]%list_elem_of_fmap Hn.
    symmetry in Hr. apply (entry_needs_mask _ _ _ Hr) in Hn.
    by rewrite (existsb_elem_of _ _ _ Hc Hn).
Qed.

(** ** The derivation stage *)

Lemma length_base_outs aggrs F x index G :
  length (base_outs aggrs F x index G) = length aggrs.
Proof. unfold base_outs. by rewrite length_fmap. Qed.

Lemma length_slot d c v outs : length (slot d c v outs) = length outs.
Proof. unfold slot. destruct (d !! c); [apply length_insert | done]. Qed.

Lemma base_outs_lookup aggrs F x index G (i : nat) c :
  aggrs !! i = Some c ->
  base_outs aggrs F x index G !! i =
  Some (base_value x index G F <$> (entry (build_aggr_index aggrs) c).1).
Proof. intros Hi. unfold base_outs. by rewrite list_lookup_fmap, Hi. Qed.

Lemma lookup_ops_lookup aggrs (i : nat) c :
  aggrs !! i = Some c ->
  lookup_ops (plan_of aggrs) !! i = Some (entry (build_aggr_index aggrs) c).2.
Proof. intros Hi. simpl. by rewrite list_lookup_fmap, Hi. Qed.

Lemma slot_lookup_ne d c v (outs : list (option matrix)) (j : nat) :
  d !! c <> Some j -> slot d c v outs !! j = outs !! j.
Proof.
  unfold slot. destruct (d !! c) as [i|] eqn:Hi; [|done].
  intros Hne. apply list_lookup_insert_ne. congruence.
Qed.

Lemma slot_lookup_eq d c v (outs : list (option matrix)) (j : nat) :
  d !! c = Some j -> j < length outs -> slot d c v outs !! j = Some (Some v).
Proof. unfold slot. intros -> Hj. by apply list_lookup_insert_eq. Qed.

Lemma aggr_index_lt aggrs c i :
  build_aggr_index aggrs !! c = Some i -> i < length aggrs.
Proof. intros H%aggr_index_Some. by eapply lookup_lt_Some. Qed.

Lemma aggr_index_ne aggrs c c' i :
  c <> c' -> build_aggr_index aggrs !! c = Some i ->
  build_aggr_index aggrs !! c' <> Some i.
Proof. intros Hne H%aggr_index_Some H'%aggr_index_Some. congruence. Qed.

Lemma need_degree_elem_of aggrs c i :
  build_aggr_index aggrs !! c = Some i -> DEGREE_BASED_AGGRS c = true ->
  need_degree (plan_of aggrs) = true.
Proof.
  intros H%aggr_index_Some Hd. simpl.
  eapply existsb_elem_of; [by eapply list_elem_of_lookup_2 | done].
Qed.

(** The sum every mean is computed from. *)
Lemma fresh_mean_valid line aggrs F x index G i c :
  valid_index G index -> length index <= length x ->
  build_aggr_index aggrs !! c = Some i -> DEGREE_BASED_AGGRS c = true ->
  fresh_mean line x index G F
    (if need_degree (plan_of aggrs) then Some (clamped_count G index) else None)
  = Ok (mean_value F x index G).
Proof.
  intros Hv Hlen Hi Hc. unfold fresh_mean.
  rewrite new_size_group_count. cbn [bind].
  rewrite scatter_reduce_valid by done.
  rewrite (need_degree_elem_of _ _ _ Hi Hc). done.
Qed.

Section Stages.
Variables (aggrs : list Aggr) (F : nat) (x : matrix) (index : list Z) (G : nat).
Hypothesis Hv : valid_index G index.
Hypothesis Hlen : length index <= length x.

Let d := build_aggr_index aggrs.
Let self := plan_of aggrs.
Let count :=
  if need_degree self then Some (clamped_count G index) else None.
Let outs0 := base_outs aggrs F x index G.
Let outs1 := slot d MeanAggregation (aggregate MeanAggregation F x index G) outs0.
Let outs2 := slot d VarAggregation (aggregate VarAggregation F x index G) outs1.

Lemma outs0_base line (j : nat) c r :
  d !! c = Some j -> (entry d c).1 = Some r ->
  list_get line outs0 j = Ok (Some (base_value x index G F r)).
Proof.
  intros Hj%aggr_index_Some Hr. unfold list_get, outs0.
  rewrite (base_outs_lookup _ _ _ _ _ _ _ Hj). fold d. by rewrite Hr.
Qed.

Lemma list_set_valid {A} line (l : list A) i a :
  i < length l -> list_set line l i a = Ok (<[i:=a]> l).
Proof. intros Hi. unfold list_set. by rewrite bool_decide_eq_true_2. Qed.

Lemma count_assigned c (i : nat) :
  d !! c = Some i -> DEGREE_BASED_AGGRS c = true ->
  count = Some (clamped_count G index).
Proof.
  intros Hi Hc. unfold count, self. by rewrite (need_degree_elem_of _ _ _ Hi).
Qed.

Lemma mean_stage_eq : mean_stage self count outs0 = Ok outs1.
Proof.
  unfold mean_stage, outs1, slot, self. simpl aggr_index. fold d.
  destruct (d !! MeanAggregation) as [i|] eqn:Hi; [|done].
  pose proof (aggr_index_Some _ _ _ Hi) as Hk.
  unfold list_get at 1. rewrite (lookup_ops_lookup _ _ _ Hk). fold d.
  fold self. fold count. rewrite (count_assigned _ i Hi) by done.
  assert (list_set 212 outs0 i (Some (aggregate MeanAggregation F x index G)) =
          Ok (<[i:=Some (aggregate MeanAggregation F x index G)]> outs0)) as Hset.
  { apply list_set_valid. unfold outs0. rewrite length_base_outs.
    by eapply lookup_lt_Some. }
  unfold entry, plan_entry.
  destruct (d !! SumAggregation) as [j|] eqn:Hj; simpl.
  - rewrite (outs0_base _ j SumAggregation r_sum) by done. simpl. exact Hset.
  - rewrite (outs0_base _ i MeanAggregation r_sum); [simpl; exact Hset|done|].
    unfold entry, plan_entry. by rewrite Hj.
Qed.

Lemma outs1_base line (j : nat) c r :
  c <> MeanAggregation -> d !! c = Some j -> (entry d c).1 = Some r ->
  list_get line outs1 j = Ok (Some (base_value x index G F r)).
Proof.
  intros Hne Hj Hr. rewrite <- (outs0_base line j c r) by done.
  unfold list_get, outs1. rewrite slot_lookup_ne; [done|].
  apply (aggr_index_ne aggrs c); [done|exact Hj].
Qed.

Lemma outs1_mean line (j : nat) :
  d !! MeanAggregation = Some j ->
  list_get line outs1 j = Ok (Some (mean_value F x index G)).
Proof.
  intros Hj. unfold list_get, outs1.
  rewrite slot_lookup_eq; [done..|].
  unfold outs0. rewrite length_base_outs. by eapply aggr_index_lt.
Qed.

Lemma length_outs1 : length outs1 = length aggrs.
Proof. unfold outs1, outs0. by rewrite length_slot, length_base_outs. Qed.

Lemma length_outs2 : length outs2 = length aggrs.
Proof. unfold outs2. by rewrite length_slot, length_outs1. Qed.

Lemma fresh_mean_eq line c (i : nat) :
  d !! c = Some i -> DEGREE_BASED_AGGRS c = true ->
  fresh_mean line x index G F count = Ok (mean_value F x index G).
Proof. intros Hi Hc. by apply (fresh_mean_valid _ aggrs _ _ _ _ i c). Qed.

Lemma var_stage_eq : var_stage self x index G F count outs1 = Ok outs2.
Proof.
  unfold var_stage, outs2, slot at 1, self. simpl aggr_index. fold d.
  destruct (d !! VarAggregation) as [i|] eqn:Hi; [|done].
  pose proof (aggr_index_Some _ _ _ Hi) as Hk.
  unfold list_get at 1. rewrite (lookup_ops_lookup _ _ _ Hk). fold d.
  fold self. fold count.
  pose proof (count_assigned _ i Hi eq_refl) as Hcount.
  assert (Hpow : list_get 230 outs1 i =
                 Ok (Some (base_value x index G F r_pow_sum))).
  { apply (outs1_base _ _ VarAggregation); [done..|].
    unfold entry, plan_entry. by repeat destruct (d !! _). }
  assert (Hset : forall v, list_set 231 outs1 i v = Ok (<[i:=v]> outs1)).
  { intros v. apply list_set_valid. rewrite length_outs1.
    by eapply lookup_lt_Some. }
  unfold entry, plan_entry.
  destruct (d !! MeanAggregation) as [j|] eqn:Hm; simpl.
  - rewrite (outs1_mean _ j Hm). simpl.
    rewrite Hpow, Hcount. simpl. apply Hset.
  - destruct (d !! SumAggregation) as [j|] eqn:Hs; simpl.
    + rewrite (outs1_base _ j SumAggregation r_sum) by done.
      rewrite Hcount. simpl. rewrite Hpow. simpl. apply Hset.
    + rewrite (fresh_mean_eq _ _ i Hi) by done. simpl.
      rewrite Hpow, Hcount. simpl. apply Hset.
Qed.

Lemma outs2_base line (j : nat) c r :
  c <> MeanAggregation -> c <> VarAggregation ->
  d !! c = Some j -> (entry d c).1 = Some r ->
  list_get line outs2 j = Ok (Some (base_value x index G F r)).
Proof.
  intros Hne Hne' Hj Hr. rewrite <- (outs1_base line j c r) by done.
  unfold list_get, outs2. rewrite slot_lookup_ne; [done|].
  apply (aggr_index_ne aggrs c); [done|exact Hj].
Qed.

Lemma outs2_mean line (j : nat) :
  d !! MeanAggregation = Some j ->
  list_get line outs2 j = Ok (Some (mean_value F x index G)).
Proof.
  intros Hj. rewrite <- (outs1_mean line j) by done.
  unfold list_get, outs2. rewrite slot_lookup_ne; [done|].
  apply (aggr_index_ne aggrs MeanAggregation); [done|exact Hj].
Qed.

Lemma outs2_var (j : nat) :
  d !! VarAggregation = Some j ->
  outs2 !! j = Some (Some (var_value F x index G)).
Proof.
  intros Hj. unfold outs2. rewrite slot_lookup_eq; [done..|].
  rewrite length_outs1. by eapply aggr_index_lt.
Qed.

Lemma std_variance_eq (i : nat) :
  d !! StdAggregation = Some i ->
  std_variance x index G F count outs2 i (entry d StdAggregation).2 =
  Ok (var_value F x index G).
Proof.
  intros Hi.
  pose proof (count_assigned _ i Hi eq_refl) as Hcount.
  assert (Hpow : forall line, (entry d StdAggregation).1 = Some r_pow_sum ->
                 list_get line outs2 i =
                 Ok (Some (base_value x index G F r_pow_sum))).
  { intros line Hr. by apply (outs2_base _ _ StdAggregation). }
  revert Hpow. unfold entry, plan_entry, std_variance.
  destruct (d !! VarAggregation) as [j|] eqn:Hvar; simpl.
  { intros _. unfold list_get. by rewrite (outs2_var j Hvar). }
  destruct (d !! MeanAggregation) as [j|] eqn:Hm; simpl.
  { intros ->; [|done]. simpl. rewrite (outs2_mean _ j Hm). simpl.
    by rewrite Hcount. }
  destruct (d !! SumAggregation) as [j|] eqn:Hs; simpl.
  { intros ->; [|done]. simpl.
    rewrite (outs2_base _ j SumAggregation r_sum) by done.
    rewrite Hcount. done. }
  intros ->; [|done]. simpl.
  rewrite (fresh_mean_eq _ _ i Hi) by done. simpl. by rewrite Hcount.
Qed.

Lemma std_stage_eq :
  std_stage self x index G F count outs2 = Ok (final_outs aggrs F x index G).
Proof.
  unfold std_stage, final_outs, slot at 1, self. simpl aggr_index. fold d.
  fold outs0. fold outs1. fold outs2.
  destruct (d !! StdAggregation) as [i|] eqn:Hi; [|done].
  pose proof (aggr_index_Some _ _ _ Hi) as Hk.
  unfold list_get. rewrite (lookup_ops_lookup _ _ _ Hk). fold d. simpl.
  fold self. fold count. rewrite (std_variance_eq i Hi). simpl.
  apply list_set_valid. rewrite length_outs2. by eapply lookup_lt_Some.
Qed.

(** On a valid index, the list [outs] at the end of the derivation
    stage. *)
Lemma forward_outs_valid :
  forward_outs self F x index G = Ok (final_outs aggrs F x index G).
Proof.
  unfold forward_outs.
  rewrite degree_stage_valid by done. cbn [bind fst snd].
  unfold self. rewrite base_loop_plan by done. cbn [bind].
  fold self. fold count. fold outs0.
  rewrite mean_stage_eq. cbn [bind]. rewrite var_stage_eq. cbn [bind].
  apply std_stage_eq.
Qed.
End Stages.

(** ** Shapes of the values *)

Lemma shape_new_full G F v : shape G F (new_full G F v).
Proof.
  unfold new_full. split; [apply length_replicate|].
  apply Forall_replicate, length_replicate.
Qed.

Lemma shape_scatter G F op self index src :
  shape G F self -> Forall (fun row => length row = F) src ->
  shape G F (scatter op self index src).
Proof.
  intros [Hl Hr] Hsrc. split; [by rewrite length_scatter|].
  by apply scatter_rows.
Qed.

Lemma Forall_zip_with_rows {A} F (f : list float -> A -> list float)
    (a : matrix) (b : list A) :
  (forall r v, length r = F -> length (f r v) = F) ->
  Forall (fun row => length row = F) a ->
  Forall (fun row => length row = F) (zip_with f a b).
Proof.
  intros Hf Ha. revert b. induction Ha as [|r a Hr Ha IH]; intros [|v b];
    simpl; constructor; auto.
Qed.

Lemma shape_masked_fill G F m mask :
  shape G F m -> length mask = G -> shape G F (masked_fill m mask).
Proof.
  intros [Hl Hr] Hm. unfold masked_fill. split.
  - rewrite length_zip_with. lia.
  - apply Forall_zip_with_rows; [|done].
    intros r [] Hlen; [by rewrite length_fmap | done].
Qed.

Lemma shape_mdiv G F m count :
  shape G F m -> length count = G -> shape G F (mdiv m count).
Proof.
  intros [Hl Hr] Hm. unfold mdiv. split.
  - rewrite length_zip_with. lia.
  - apply Forall_zip_with_rows; [|done].
    intros r v Hlen. by rewrite length_fmap.
Qed.

Lemma shape_zip_with2 G F op a b :
  shape G F a -> shape G F b -> shape G F (zip_with (zip_with op) a b).
Proof.
  intros [Hla Hra] [Hlb Hrb]. split.
  - rewrite length_zip_with. lia.
  - clear Hla Hlb. revert b Hrb.
    induction Hra as [|r a Hr Ha IH]; intros b Hrb; [constructor|].
    destruct Hrb as [|r' b Hr' Hb]; simpl; constructor; auto.
    rewrite length_zip_with. lia.
Qed.

Lemma shape_mstd G F m : shape G F m -> shape G F (mstd m).
Proof.
  intros [Hl Hr]. unfold mstd. split; [by rewrite length_fmap|].
  apply Forall_fmap. eapply Forall_impl; [exact Hr|].
  intros r Hlen. simpl. by rewrite length_fmap.
Qed.

Lemma shape_base_value G F x index r :
  Forall (fun row => length row = F) x ->
  shape G F (base_value x index G F r).
Proof.
  intros Hx. unfold base_value.
  assert (shape G F (scatter
    (reduce_fn (if decide (r = r_pow_sum) then r_sum else r))
    (new_full G F (fill_value (if decide (r = r_pow_sum) then r_sum else r)))
    index (if decide (r = r_pow_sum) then mmul x x else x))) as Hs.
  { apply shape_scatter; [apply shape_new_full|].
    destruct (decide (r = r_pow_sum)); [|done].
    apply (shape_zip_with2 (length x) F); by split. }
  destruct (negb _); [|done].
  apply shape_masked_fill; [done | apply length_empty_mask].
Qed.

Lemma shape_mean_value G F x index :
  Forall (fun row => length row = F) x -> shape G F (mean_value F x index G).
Proof.
  intros Hx. apply shape_mdiv; [by apply shape_base_value|].
  apply length_clamped_count.
Qed.

Lemma shape_var_value G F x index :
  Forall (fun row => length row = F) x -> shape G F (var_value F x index G).
Proof.
  intros Hx. apply shape_zip_with2.
  - apply shape_mdiv; [by apply shape_base_value | apply length_clamped_count].
  - apply shape_zip_with2; by apply shape_mean_value.
Qed.

Lemma shape_aggregate G F x index c :
  FUSABLE_AGGRS c = true -> Forall (fun row => length row = F) x ->
  shape G F (aggregate c F x index G).
Proof.
  intros Hc Hx. destruct c; try done; simpl.
  1,3,4,5: by apply shape_base_value.
  - by apply shape_mean_value.
  - by apply shape_var_value.
  - by apply shape_mstd, shape_var_value.
Qed.

(** ** Assembly *)

Lemma tensors_Ok line (outs : list (option matrix)) ms :
  tensors line outs = Ok ms <-> outs = Some <$> ms.
Proof.
  revert ms. induction outs as [|[m|] outs IH]; intros ms; simpl.
  - split; [by intros [= <-] | by destruct ms].
  - rewrite bind_Ok. split.
    + intros (ms' & Hms' & [= <-]). apply IH in Hms'. by rewrite Hms'.
    + destruct ms as [|m' ms]; [done|]. intros [= -> Houts].
      exists ms. by rewrite IH.
  - split; [done | by destruct ms].
Qed.

Lemma row_lookup g (m : matrix) r : m !! g = Some r -> row g m = r.
Proof. unfold row. by intros ->. Qed.

Lemma cat_fold_length G m ms :
  Forall (fun m : matrix => length m = G) (m :: ms) ->
  length (foldl (zip_with app) m ms) = G.
Proof.
  revert m. induction ms as [|m' ms IH]; intros m Hall; simpl.
  - by apply Forall_cons in Hall as [? _].
  - apply Forall_cons in Hall as [Hm [Hm' Hms]%Forall_cons].
    apply IH. constructor; [|done]. rewrite length_zip_with. lia.
Qed.

Lemma cat_fold_lookup G m ms g :
  Forall (fun m : matrix => length m = G) (m :: ms) -> g < G ->
  foldl (zip_with app) m ms !! g = Some (mjoin (row g <$> m :: ms)).
Proof.
  revert m. induction ms as [|m' ms IH]; intros m Hall Hg.
  - apply Forall_cons in Hall as [Hm _]. simpl.
    destruct (lookup_lt_is_Some_2 m g ltac:(lia)) as [r Hr].
    by rewrite (row_lookup _ _ _ Hr), app_nil_r.
  - apply Forall_cons in Hall as [Hm [Hm' Hms]%Forall_cons].
    change (foldl (zip_with app) m (m' :: ms))
      with (foldl (zip_with app) (zip_with app m m') ms).
    rewrite IH; [|constructor; [rewrite length_zip_with; lia | done] | done].
    f_equal. simpl. rewrite app_assoc. f_equal.
    destruct (lookup_lt_is_Some_2 m g ltac:(lia)) as [r Hr].
    destruct (lookup_lt_is_Some_2 m' g ltac:(lia)) as [r' Hr'].
    rewrite (row_lookup _ _ _ Hr), (row_lookup _ _ _ Hr').
    apply row_lookup. rewrite lookup_zip_with, Hr. simpl. by rewrite Hr'.
Qed.

Lemma length_mjoin_rows F (rs : matrix) :
  Forall (fun r => length r = F) rs -> length (mjoin rs) = length rs * F.
Proof.
  induction 1 as [|r rs Hr Hrs IH]; simpl; [done|].
  rewrite length_app. lia.
Qed.

Lemma block_mjoin F (rs : matrix) (k : nat) r :
  Forall (fun r => length r = F) rs -> rs !! k = Some r ->
  take F (drop (k * F) (mjoin rs)) = r.
Proof.
  intros Hrs. revert k. induction Hrs as [|r0 rs Hr0 Hrs IH]; intros k Hk;
    [done|].
  destruct k as [|k]; simpl in *.
  - injection Hk as ->. rewrite drop_0. by rewrite take_app_length'.
  - rewrite drop_app_ge by lia.
    replace (F + k * F - length r0) with (k * F) by lia. by apply IH.
Qed.

Lemma cat_Some line (ms : list matrix) :
  ms <> [] -> cat line (Some <$> ms) = Ok (cat_value ms).
Proof.
  intros Hne. unfold cat.
  rewrite (proj2 (tensors_Ok line (Some <$> ms) ms) eq_refl). simpl.
  by destruct ms.
Qed.

Lemma cat_Ok line outs out :
  cat line outs = Ok out ->
  exists ms, outs = Some <$> ms /\ ms <> [] /\ out = cat_value ms.
Proof.
  unfold cat. intros (ms & Hms%tensors_Ok & Hout)%bind_Ok.
  exists ms. destruct ms as [|m ms]; [done|]. by injection Hout as <-.
Qed.

Lemma length_cat_value G ms :
  ms <> [] -> Forall (fun m : matrix => length m = G) ms ->
  length (cat_value ms) = G.
Proof. destruct ms as [|m ms]; [done|]. intros _. apply cat_fold_length. Qed.

Lemma cat_value_lookup G ms g :
  ms <> [] -> Forall (fun m : matrix => length m = G) ms -> g < G ->
  cat_value ms !! g = Some (mjoin (row g <$> ms)).
Proof. destruct ms as [|m ms]; [done|]. intros _. apply cat_fold_lookup. Qed.

Lemma shape_row G F m g : shape G F m -> g < G -> length (row g m) = F.
Proof.
  intros [Hl Hr] Hg.
  destruct (lookup_lt_is_Some_2 m g ltac:(lia)) as [r Hlk].
  rewrite (row_lookup _ _ _ Hlk).
  by eapply (Forall_lookup_1 _ _ _ _ Hr).
Qed.

Lemma shape_cat_value G F ms :
  ms <> [] -> Forall (shape G F) ms ->
  shape G (length ms * F) (cat_value ms).
Proof.
  intros Hne Hms.
  assert (Forall (fun m : matrix => length m = G) ms) as Hlen.
  { eapply Forall_impl; [exact Hms|]. by intros m [? _]. }
  split; [by apply length_cat_value|].
  apply Forall_lookup. intros g r Hg.
  assert (g < G) as HgG.
  { apply lookup_lt_Some in Hg. by rewrite (length_cat_value G) in Hg. }
  rewrite (cat_value_lookup G) in Hg by done. injection Hg as <-.
  rewrite (length_mjoin_rows F), length_fmap; [done|].
  apply Forall_fmap. eapply Forall_impl; [exact Hms|].
  intros m Hm. simpl. by eapply shape_row.
Qed.

(** Block [k] of a concatenation is its [k]-th tensor. *)
Lemma block_cat_value G F ms (k : nat) m :
  Forall (shape G F) ms -> ms !! k = Some m ->
  block F k (cat_value ms) = m.
Proof.
  intros Hms Hk.
  assert (ms <> []) as Hne by (intros ->; done).
  assert (Forall (fun m : matrix => length m = G) ms) as Hlen.
  { eapply Forall_impl; [exact Hms|]. by intros m' [? _]. }
  pose proof (Forall_lookup_1 _ _ _ _ Hms Hk) as Hm.
  apply list_eq. intros g. unfold block. rewrite list_lookup_fmap.
  destruct (decide (g < G)) as [Hg|Hg].
  - rewrite (cat_value_lookup G) by done. simpl.
    destruct (lookup_lt_is_Some_2 m g ltac:(destruct Hm; lia)) as [r Hr].
    rewrite Hr. f_equal. rewrite <- (row_lookup _ _ _ Hr).
    apply block_mjoin.
    + apply Forall_fmap. eapply Forall_impl; [exact Hms|].
      intros m' Hm'. simpl. by eapply shape_row.
    + by rewrite list_lookup_fmap, Hk.
  - rewrite (proj2 (lookup_ge_None _ _)) by (rewrite (length_cat_value G); [lia|done..]).
    rewrite (proj2 (lookup_ge_None _ _)) by (destruct Hm; lia). done.
Qed.

(** ** The outputs of a duplicate-free request *)

Lemma entry_base d c :
  DEGREE_BASED_AGGRS c = false -> FUSABLE_AGGRS c = true ->
  exists r, (entry d c).1 = Some r /\
            forall F x index G, aggregate c F x index G = base_value x index G F r.
Proof.
  destruct c; try done; intros _ _; unfold entry, plan_entry; simpl; eauto.
Qed.

Lemma final_outs_NoDup aggrs F x index G :
  NoDup aggrs -> forallb FUSABLE_AGGRS aggrs = true ->
  final_outs aggrs F x index G =
  Some <$> ((fun c => aggregate c F x index G) <$> aggrs).
Proof.
  intros Hnd Hf. apply list_eq. intros k.
  rewrite !list_lookup_fmap. unfold final_outs.
  destruct (aggrs !! k) as [c|] eqn:Hk; simpl.
  - pose proof (aggr_index_NoDup _ _ _ Hnd Hk) as Hd.
    assert (k < length aggrs) as Hlt by (by eapply lookup_lt_Some).
    assert (FUSABLE_AGGRS c = true) as Hc.
    { rewrite forallb_forall in Hf. apply Hf.
      by eapply list_elem_of_In, list_elem_of_lookup_2. }
    destruct (decide (c = StdAggregation)) as [->|Hstd].
    { rewrite slot_lookup_eq; [done..|].
      by rewrite !length_slot, length_base_outs. }
    rewrite slot_lookup_ne by (by eapply aggr_index_ne).
    destruct (decide (c = VarAggregation)) as [->|Hvar].
    { rewrite slot_lookup_eq; [done..|].
      by rewrite !length_slot, length_base_outs. }
    rewrite slot_lookup_ne by (by eapply aggr_index_ne).
    destruct (decide (c = MeanAggregation)) as [->|Hmean].
    { rewrite slot_lookup_eq; [done..|]. by rewrite length_base_outs. }
    rewrite slot_lookup_ne by (by eapply aggr_index_ne).
    rewrite (base_outs_lookup _ _ _ _ _ _ _ Hk).
    destruct (entry_base (build_aggr_index aggrs) c) as (r & -> & ->);
      [by destruct c | done | done].
  - apply lookup_ge_None. apply lookup_ge_None in Hk.
    by rewrite !length_slot, length_base_outs.
Qed.

Lemma forward_2d self F x index G dim :
  forward self (Tensor2 F x) (Some index) G dim =
  bind (forward_outs self F x index G) (cat 262).
Proof. reflexivity. Qed.

(** The output of the engine on a duplicate-free request and a valid
    invocation: the concatenation of the values of the kinds. *)
Lemma forward_NoDup aggrs self F x index G dim :
  init aggrs = Ok self -> NoDup aggrs -> valid_input F x index G ->
  forward self (Tensor2 F x) (Some index) G dim =
  Ok (cat_value ((fun c => aggregate c F x index G) <$> aggrs)).
Proof.
  intros (Hne & Hf & ->)%init_Ok Hnd (Hx & Hlen & Hv).
  rewrite forward_2d, forward_outs_valid by (done || lia). simpl.
  rewrite final_outs_NoDup by done. apply cat_Some. by destruct aggrs.
Qed.

Lemma aggregate_shapes aggrs F x index G :
  forallb FUSABLE_AGGRS aggrs = true ->
  Forall (fun row => length row = F) x ->
  Forall (shape G F) ((fun c => aggregate c F x index G) <$> aggrs).
Proof.
  intros Hf Hx. apply Forall_fmap, Forall_forall. intros c Hc. simpl.
  apply shape_aggregate; [|done].
  rewrite forallb_forall in Hf. by apply Hf, list_elem_of_In.
Qed.

(** ** The slots of a request with or without duplicates *)

Section Slots.
Variables (aggrs : list Aggr) (F : nat) (x : matrix) (index : list Z) (G : nat).
Let d := build_aggr_index aggrs.
Let final := final_outs aggrs F x index G.

Lemma length_final_outs : length final = length aggrs.
Proof. unfold final, final_outs. by rewrite !length_slot, length_base_outs. Qed.

Lemma final_outs_std (i : nat) :
  d !! StdAggregation = Some i ->
  final !! i = Some (Some (mstd (var_value F x index G))).
Proof.
  intros Hi. unfold final, final_outs. rewrite slot_lookup_eq; [done..|].
  rewrite !length_slot, length_base_outs. by eapply aggr_index_lt.
Qed.

Lemma final_outs_var (i : nat) :
  d !! VarAggregation = Some i ->
  final !! i = Some (Some (var_value F x index G)).
Proof.
  intros Hi. unfold final, final_outs.
  rewrite slot_lookup_ne by (eapply aggr_index_ne; [|exact Hi]; done).
  rewrite slot_lookup_eq; [done..|].
  rewrite !length_slot, length_base_outs. by eapply aggr_index_lt.
Qed.

Lemma final_outs_mean (i : nat) :
  d !! MeanAggregation = Some i ->
  final !! i = Some (Some (mean_value F x index G)).
Proof.
  intros Hi. unfold final, final_outs.
  do 2 rewrite slot_lookup_ne by (eapply aggr_index_ne; [|exact Hi]; done).
  rewrite slot_lookup_eq; [done..|].
  rewrite length_base_outs. by eapply aggr_index_lt.
Qed.

Lemma final_outs_base (i : nat) c :
  d !! c = Some i -> DEGREE_BASED_AGGRS c = false -> FUSABLE_AGGRS c = true ->
  final !! i = Some (Some (aggregate c F x index G)).
Proof.
  intros Hi Hdeg Hfus. unfold final, final_outs.
  do 3 rewrite slot_lookup_ne by (eapply aggr_index_ne; [|done]; by intros ->).
  rewrite (base_outs_lookup _ _ _ _ _ _ c) by (by apply aggr_index_Some).
  by destruct (entry_base (build_aggr_index aggrs) c Hdeg Hfus) as (r & -> & ->).
Qed.

(** Every slot of [outs] holds nothing, a base reduction, or the value of
    Mean or Variance, except the slot of StdDev. *)
Lemma final_outs_cases (k : nat) m :
  final !! k = Some (Some m) ->
  (d !! StdAggregation = Some k /\ m = mstd (var_value F x index G)) \/
  (d !! StdAggregation <> Some k /\
   (m = var_value F x index G \/ m = mean_value F x index G \/
    exists r, m = base_value x index G F r)).
Proof.
  intros Hk. assert (k < length aggrs) as Hlt.
  { rewrite <- length_final_outs. by eapply lookup_lt_Some. }
  destruct (decide (d !! StdAggregation = Some k)) as [Hs|Hs].
  { left. split; [done|]. rewrite (final_outs_std k Hs) in Hk. by injection Hk. }
  right. split; [done|]. revert Hk. unfold final, final_outs.
  rewrite slot_lookup_ne by done.
  destruct (decide (d !! VarAggregation = Some k)) as [Hvar|Hvar].
  { rewrite slot_lookup_eq; [|done|by rewrite length_slot, length_base_outs].
    intros [= <-]. by left. }
  rewrite slot_lookup_ne by done.
  destruct (decide (d !! MeanAggregation = Some k)) as [Hm|Hm].
  { rewrite slot_lookup_eq; [|done|by rewrite length_base_outs].
    intros [= <-]. right. by left. }
  rewrite slot_lookup_ne by done.
  destruct (lookup_lt_is_Some_2 aggrs k Hlt) as [c Hc].
  rewrite (base_outs_lookup _ _ _ _ _ _ _ Hc).
  destruct ((entry (build_aggr_index aggrs) c).1) as [r|]; simpl; [|done].
  intros [= <-]. right. right. by exists r.
Qed.
End Slots.

(** ** The rows of a group without element *)

Lemma new_full_lookup G F v (g : nat) :
  g < G -> new_full G F v !! g = Some (replicate F v).
Proof. intros Hg. unfold new_full. by rewrite lookup_replicate_2. Qed.

Lemma empty_mask_lookup G index (g : nat) :
  g < G -> empty_group index g -> empty_mask G index !! g = Some true.
Proof.
  intros Hg Hemp. unfold empty_mask.
  rewrite list_lookup_fmap, lookup_seq_lt by done. simpl.
  by rewrite bool_decide_eq_true_2.
Qed.

Lemma length_base_value x index G F r :
  length (base_value x index G F r) = G.
Proof.
  unfold base_value. destruct (negb _).
  - unfold masked_fill.
    rewrite length_zip_with, length_scatter, length_empty_mask.
    unfold new_full. rewrite length_replicate. lia.
  - rewrite length_scatter. unfold new_full. by rewrite length_replicate.
Qed.

Lemma length_mean_value F x index G : length (mean_value F x index G) = G.
Proof.
  unfold mean_value, mdiv.
  rewrite length_zip_with, length_base_value, length_clamped_count. lia.
Qed.

Lemma length_var_value F x index G : length (var_value F x index G) = G.
Proof.
  unfold var_value, msub, mmul, mdiv.
  rewrite !length_zip_with, length_base_value, length_clamped_count,
    length_mean_value. lia.
Qed.

Section EmptyGroup.
Variables (F : nat) (x : matrix) (index : list Z) (G g : nat).
Hypothesis Hv : valid_index G index.
Hypothesis Hg : g < G.
Hypothesis Hemp : empty_group index g.

Lemma base_value_empty r :
  base_value x index G F r !! g = Some (replicate F 0%float).
Proof.
  unfold base_value.
  set (r' := if decide (r = r_pow_sum) then r_sum else r).
  set (out := scatter _ _ _ _).
  assert (out !! g = Some (replicate F (fill_value r'))) as Hout.
  { unfold out. rewrite scatter_untouched; [by apply new_full_lookup| |done].
    unfold new_full. by rewrite length_replicate. }
  destruct (negb (fill_value r' =? 0)%float) eqn:Hfill.
  - unfold masked_fill. rewrite lookup_zip_with, Hout. simpl.
    rewrite empty_mask_lookup by done. simpl. by rewrite fmap_replicate.
  - rewrite Hout. subst r'. by destruct r.
Qed.

Lemma mean_value_empty :
  mean_value F x index G !! g = Some (replicate F 0%float).
Proof.
  unfold mean_value, mdiv. rewrite lookup_zip_with, base_value_empty. simpl.
  rewrite clamped_count_empty by done. simpl. by rewrite fmap_replicate.
Qed.

Lemma var_value_empty :
  var_value F x index G !! g = Some (replicate F 0%float).
Proof.
  unfold var_value, msub, mmul. rewrite !lookup_zip_with, mean_value_empty.
  simpl. unfold mdiv. rewrite lookup_zip_with, base_value_empty. simpl.
  rewrite clamped_count_empty by done. simpl.
  by rewrite fmap_replicate, !zip_with_replicate.
Qed.

Lemma std_value_empty :
  mstd (var_value F x index G) !! g = Some (replicate F (sqrt Scalar.eps)).
Proof.
  unfold mstd. rewrite list_lookup_fmap, var_value_empty. simpl.
  by rewrite fmap_replicate.
Qed.

(** Row [g] of the slot [k] of [outs]: zero, or [sqrt(1e-5)] in the slot
    of StdDev. *)
Lemma final_outs_empty_row aggrs (k : nat) m :
  final_outs aggrs F x index G !! k = Some (Some m) ->
  length m = G /\
  row g m = replicate F
              (if decide (build_aggr_index aggrs !! StdAggregation = Some k)
               then sqrt Scalar.eps else 0%float).
Proof.
  intros [[Hs ->]|[Hs [->|[->|[r ->]]]]]%final_outs_cases;
    rewrite ?decide_True, ?decide_False by done; split.
  - unfold mstd. by rewrite length_fmap, length_var_value.
  - apply row_lookup, std_value_empty.
  - apply length_var_value.
  - apply row_lookup, var_value_empty.
  - apply length_mean_value.
  - apply row_lookup, mean_value_empty.
  - apply length_base_value.
  - apply row_lookup, base_value_empty.
Qed.
End EmptyGroup.

(** ** Reductions, group by group *)

(** A scatter reduces every group on its own: row [g] of the result is
    row [g] of [self] combined with the rows of the group, in their
    order. *)
Lemma scatter_group op (self : matrix) index src (g : nat) :
  Forall (fun i => (0 <= i)%Z) index ->
  scatter op self index src !! g =
  (fun o => foldl (zip_with op) o (group_rows index src g)) <$> self !! g.
Proof.
  unfold scatter, group_rows.
  revert self src. induction index as [|i index IH]; intros self src Hpos.
  - simpl. by destruct (self !! g).
  - destruct src as [|row src].
    { simpl. by destruct (self !! g). }
    apply Forall_cons in Hpos as [Hi Hpos]. simpl zip. simpl foldl.
    rewrite IH by done. rewrite filter_cons. simpl.
    destruct (decide (i = Z.of_nat g)) as [->|Hne].
    + rewrite Nat2Z.id, list_lookup_alter_eq. by destruct (self !! g).
    + rewrite list_lookup_alter_ne by lia. done.
Qed.

Lemma group_rows_empty index src g :
  empty_group index g -> group_rows index src g = [].
Proof.
  unfold empty_group, group_rows.
  revert src. induction index as [|i index IH]; intros src Hemp; [done|].
  destruct src as [|row src]; [done|].
  apply not_elem_of_cons in Hemp as [Hne Hemp]. simpl zip.
  rewrite filter_cons. simpl. rewrite decide_False by done. by apply IH.
Qed.

Lemma group_rows_nonempty index src g :
  length index <= length src -> ~ empty_group index g ->
  group_rows index src g <> [].
Proof.
  unfold empty_group, group_rows.
  revert src. induction index as [|i index IH]; intros src Hlen Hne.
  - destruct Hne. apply not_elem_of_nil.
  - destruct src as [|row src]; simpl in Hlen; [lia|]. simpl zip.
    rewrite filter_cons. simpl.
    destruct (decide (i = Z.of_nat g)) as [->|Hig]; [done|].
    apply IH; [lia|]. intros Hemp. apply Hne.
    apply not_elem_of_cons. split; [congruence | done].
Qed.

Lemma base_value_group x index G F r (g : nat) :
  valid_index G index -> g < G ->
  base_value x index G F r !! g =
  Some (if decide (empty_group index g) then replicate F 0%float
        else foldl (zip_with (reduce_fn (if decide (r = r_pow_sum) then r_sum else r)))
               (replicate F (fill_value (if decide (r = r_pow_sum) then r_sum else r)))
               (group_rows index (if decide (r = r_pow_sum) then mmul x x else x) g)).
Proof.
  intros Hv Hg. destruct (decide (empty_group index g)) as [Hemp|Hne].
  { by apply base_value_empty. }
  unfold base_value.
  set (r' := if decide (r = r_pow_sum) then r_sum else r).
  set (src := if decide (r = r_pow_sum) then mmul x x else x).
  assert (scatter (reduce_fn r') (new_full G F (fill_value r')) index src !! g =
          Some (foldl (zip_with (reduce_fn r')) (replicate F (fill_value r'))
                  (group_rows index src g))) as Hs.
  { rewrite scatter_group by (by eapply valid_index_nonneg).
    by rewrite new_full_lookup. }
  destruct (negb _); [|done].
  unfold masked_fill. rewrite lookup_zip_with, Hs. simpl.
  unfold empty_mask. rewrite list_lookup_fmap, lookup_seq_lt by done. simpl.
  by rewrite bool_decide_eq_false_2.
Qed.

(** The count of a group is the sum of one [1] per element of the
    group. *)
Lemma counts_group (acc : list float) (index : list Z) (g : nat) :
  Forall (fun i => (0 <= i)%Z) index ->
  foldl (fun acc i => alter (fun c => c + 1)%float (Z.to_nat i) acc) acc index
    !! g =
  (fun c => foldl (fun n _ => n + 1)%float c
              (filter (fun i => i = Z.of_nat g) index)) <$> acc !! g.
Proof.
  revert acc. induction index as [|i index IH]; intros acc Hpos.
  - simpl. by destruct (acc !! g).
  - apply Forall_cons in Hpos as [Hi Hpos]. simpl foldl.
    rewrite IH by done. rewrite filter_cons.
    destruct (decide (i = Z.of_nat g)) as [->|Hne].
    + rewrite Nat2Z.id, list_lookup_alter_eq. by destruct (acc !! g).
    + rewrite list_lookup_alter_ne by lia. done.
Qed.

Lemma clamped_count_floor G index :
  valid_index G index -> clamped_count G index = floor_counts index G.
Proof.
  intros Hv%valid_index_nonneg. apply list_eq. intros g.
  unfold clamped_count, counts, floor_counts, element_count.
  rewrite !list_lookup_fmap, counts_group by done.
  destruct (decide (g < G)) as [Hg|Hg].
  - by rewrite lookup_replicate_2, lookup_seq_lt.
  - rewrite lookup_seq_ge by lia.
    by rewrite (proj1 (lookup_replicate_None _ _ _)) by lia.
Qed.

(** A base reduction is the grouped reduce of its rows, with the rows of
    the empty groups set to zero when the fill value is not zero. *)
Lemma base_value_grouped x index G F r :
  valid_index G index ->
  base_value x index G F r =
  let r' := if decide (r = r_pow_sum) then r_sum else r in
  let src := if decide (r = r_pow_sum) then mmul x x else x in
  let out := grouped_reduce src index (reduce_fn r') G F (fill_value r') in
  if needs_mask r then zero_empty_rows index F out else out.
Proof.
  intros Hv. apply list_eq. intros g. cbv zeta.
  set (r' := if decide (r = r_pow_sum) then r_sum else r).
  set (src := if decide (r = r_pow_sum) then mmul x x else x).
  assert (grouped_reduce src index (reduce_fn r') G F (fill_value r') !! g =
          (fun g => foldl (zip_with (reduce_fn r')) (replicate F (fill_value r'))
                      (group_rows index src g)) <$> seq 0 G !! g) as Hgr.
  { unfold grouped_reduce. by rewrite list_lookup_fmap. }
  destruct (decide (g < G)) as [Hg|Hg].
  - rewrite base_value_group by done. fold r' src.
    rewrite lookup_seq_lt in Hgr by done. simpl in Hgr.
    destruct (needs_mask r) eqn:Hmask.
    + unfold zero_empty_rows. rewrite list_lookup_imap, Hgr. simpl.
      by destruct (decide (empty_group index g));
        [rewrite bool_decide_eq_true_2 | rewrite bool_decide_eq_false_2].
    + rewrite Hgr. destruct (decide (empty_group index g)) as [Hemp|]; [|done].
      rewrite group_rows_empty by done. simpl. f_equal. f_equal.
      subst r'. by destruct r.
  - rewrite (proj2 (lookup_ge_None _ _)) by (rewrite length_base_value; lia).
    rewrite lookup_seq_ge in Hgr by lia.
    destruct (needs_mask r).
    + unfold zero_empty_rows. by rewrite list_lookup_imap, Hgr.
    + by rewrite Hgr.
Qed.

(** The value of a kind in the fused engine is the kind computed
    alone. *)
Lemma aggregate_unfused c F x index G :
  valid_index G index -> FUSABLE_AGGRS c = true ->
  aggregate c F x index G = unfused c F x index G.
Proof.
  intros Hv Hc.
  unfold aggregate, unfused, var_value, mean_value.
  rewrite !base_value_grouped, clamped_count_floor by done.
  by destruct c.
Qed.


(** * The claims *)

(** A decidable fact of a concrete input, by evaluation. *)
Ltac by_compute := apply (bool_decide_unpack _); vm_compute; exact I.

(** ** The plan (C5, C9) *)

Lemma reuses_intro aggrs (k : nat) c c' j :
  aggrs !! k = Some c ->
  build_aggr_index aggrs !! c' = Some j ->
  (entry (build_aggr_index aggrs) c).2 = Some (c', j) ->
  reuses (plan_of aggrs) k c'.
Proof.
  intros Hk Hj He. exists j. split_and!.
  - by rewrite (lookup_ops_lookup _ _ _ Hk), He.
  - done.
  - by apply aggr_index_Some.
Qed.

Lemma plan_entry_lookup aggrs (k : nat) c :
  aggrs !! k = Some c ->
  base_reduce_of (plan_of aggrs) k (entry (build_aggr_index aggrs) c).1 /\
  lookup_ops (plan_of aggrs) !! k = Some (entry (build_aggr_index aggrs) c).2.
Proof.
  intros Hk. split; [|by apply lookup_ops_lookup].
  unfold base_reduce_of. simpl. by rewrite list_lookup_fmap, Hk.
Qed.

(** The reuse targets of Variance and of StdDev, in their priority
    order. *)
Lemma reuse_mean_sum aggrs (k : nat) c :
  aggrs !! k = Some c ->
  (forall d, d !! MeanAggregation = None ->
     (entry d c).2 = match d !! SumAggregation with
                     | Some j => Some (SumAggregation, j)
                     | None => None
                     end) ->
  (forall d j, d !! MeanAggregation = Some j ->
     (entry d c).2 = Some (MeanAggregation, j)) ->
  (MeanAggregation ∈ aggrs -> reuses (plan_of aggrs) k MeanAggregation) /\
  (MeanAggregation ∉ aggrs -> SumAggregation ∈ aggrs ->
     reuses (plan_of aggrs) k SumAggregation) /\
  (MeanAggregation ∉ aggrs -> SumAggregation ∉ aggrs ->
     no_reuse (plan_of aggrs) k).
Proof.
  intros Hk Hnone Hsome. split_and!.
  - intros [j Hj]%aggr_index_is_Some.
    eapply reuses_intro; [done..|]. by apply Hsome.
  - intros Hm%aggr_index_None [j Hj]%aggr_index_is_Some.
    eapply reuses_intro; [done..|]. by rewrite Hnone, Hj.
  - intros Hm%aggr_index_None Hs%aggr_index_None. unfold no_reuse.
    by rewrite (lookup_ops_lookup _ _ _ Hk), Hnone, Hs.
Qed.

(** C5: the reuse targets of the plan follow the priority order.  Variance
    always has its sum-of-squares base reduce; for its mean it reuses
    Mean's slot if Mean is requested, else Sum's slot if Sum is requested,
    else nothing.  StdDev reuses Variance's slot if Variance is requested,
    with no base reduce of its own; else it has its sum-of-squares base
    reduce and reuses Mean's slot, else Sum's slot, else nothing. *)
Theorem C5_reuse_priority aggrs self :
  init aggrs = Ok self ->
  (forall k : nat, aggrs !! k = Some VarAggregation ->
     base_reduce_of self k (Some r_pow_sum) /\
     (MeanAggregation ∈ aggrs -> reuses self k MeanAggregation) /\
     (MeanAggregation ∉ aggrs -> SumAggregation ∈ aggrs ->
        reuses self k SumAggregation) /\
     (MeanAggregation ∉ aggrs -> SumAggregation ∉ aggrs -> no_reuse self k)) /\
  (forall k : nat, aggrs !! k = Some StdAggregation ->
     (VarAggregation ∈ aggrs ->
        reuses self k VarAggregation /\ base_reduce_of self k None) /\
     (VarAggregation ∉ aggrs ->
        base_reduce_of self k (Some r_pow_sum) /\
        (MeanAggregation ∈ aggrs -> reuses self k MeanAggregation) /\
        (MeanAggregation ∉ aggrs -> SumAggregation ∈ aggrs ->
           reuses self k SumAggregation) /\
        (MeanAggregation ∉ aggrs -> SumAggregation ∉ aggrs ->
           no_reuse self k))).
Proof.
  intros (Hne & Hf & ->)%init_Ok. split; intros k Hk.
  - split.
    + destruct (plan_entry_lookup _ _ _ Hk) as [Hr _].
      revert Hr. unfold entry, plan_entry.
      by repeat destruct (build_aggr_index aggrs !! _).
    + apply (reuse_mean_sum aggrs k VarAggregation Hk).
      * intros d Hd. unfold entry, plan_entry. rewrite Hd.
        by destruct (d !! SumAggregation).
      * intros d j Hd. unfold entry, plan_entry. by rewrite Hd.
  - destruct (plan_entry_lookup _ _ _ Hk) as [Hr _]. split.
    + intros [j Hj]%aggr_index_is_Some. split.
      * eapply reuses_intro; [done..|]. unfold entry, plan_entry. by rewrite Hj.
      * revert Hr. unfold entry, plan_entry. by rewrite Hj.
    + intros Hvar%aggr_index_None. split.
      * revert Hr. unfold entry, plan_entry. rewrite Hvar.
        by repeat destruct (build_aggr_index aggrs !! _).
      * (* without Variance the entry of StdDev is the one of Variance *)
        assert (entry (build_aggr_index aggrs) StdAggregation =
                entry (build_aggr_index aggrs) VarAggregation) as He.
        { unfold entry, plan_entry. by rewrite Hvar. }
        split_and!.
        -- intros [j Hj]%aggr_index_is_Some.
           eapply reuses_intro; [done..|]. rewrite He.
           unfold entry, plan_entry. by rewrite Hj.
        -- intros Hm%aggr_index_None [j Hj]%aggr_index_is_Some.
           eapply reuses_intro; [done..|]. rewrite He.
           unfold entry, plan_entry. by rewrite Hm, Hj.
        -- intros Hm%aggr_index_None Hs%aggr_index_None. unfold no_reuse.
           rewrite (lookup_ops_lookup _ _ _ Hk), He.
           unfold entry, plan_entry. by rewrite Hm, Hs.
Qed.

Lemma C5_reuse_priority_witness :
  let aggrs := [StdAggregation; SumAggregation; VarAggregation] in
  let self := plan_of aggrs in
  init aggrs = Ok self /\
  reuses self 2 SumAggregation /\
  reuses self 0 VarAggregation /\ base_reduce_of self 0 None.
Proof.
  intros aggrs self.
  assert (init aggrs = Ok self) as Hinit by (vm_compute; reflexivity).
  split; [exact Hinit|].
  destruct (C5_reuse_priority aggrs self Hinit) as [Hvar Hstd].
  destruct (Hvar 2 eq_refl) as (_ & _ & Hsum & _).
  destruct (Hstd 0 eq_refl) as [Hv _].
  split.
  - apply Hsum; by_compute.
  - apply Hv. by_compute.
Defined.

(** *** The exceptions of the forward pass *)

Lemma benign_safe {A} (m : result A) : may_raise benign m -> may_raise chain_safe m.
Proof.
  apply may_raise_weaken. intros e l [Ha Hn] [[-> _]|[-> _]]; done.
Qed.

Lemma scatter_reduce_benign line op self index F src :
  may_raise benign (scatter_reduce_ line op self index F src).
Proof.
  unfold scatter_reduce_. destruct (decide (F = 0)); [done|].
  revert self src. induction index as [|i index IH]; intros self [|row src];
    simpl; try done.
  case_bool_decide; [apply IH | done].
Qed.

Lemma scatter_add_benign line self index src :
  may_raise benign (scatter_add_ line self index src).
Proof.
  revert self src. induction index as [|i index IH]; intros self [|s src];
    simpl; try done.
  case_bool_decide; [apply IH | done].
Qed.

Lemma index_put_false_benign line mask index :
  may_raise benign (index_put_false line mask index).
Proof.
  eapply may_raise_weaken; [|apply index_put_false_may_raise].
  by intros e l [-> _].
Qed.

Lemma new_size_benign line dim_size : may_raise benign (new_size line dim_size).
Proof.
  unfold new_size. destruct dim_size as [n|]; [|done]. by case_bool_decide.
Qed.

Lemma local_benign {A} line (v : option A) : may_raise benign (local line v).
Proof. by destruct v. Qed.

Lemma list_get_benign {A} line (l : list A) i : may_raise benign (list_get line l i).
Proof. unfold list_get. by destruct (l !! i). Qed.

Lemma operand_benign line o : may_raise benign (operand line o).
Proof. by destruct o. Qed.

Lemma variance_of_benign line pow_sum count mean :
  may_raise benign (variance_of line pow_sum count mean).
Proof.
  unfold variance_of. apply may_raise_bind; [apply local_benign|]. intros ? _.
  apply may_raise_bind; [apply operand_benign|]. intros ? _.
  apply may_raise_bind; [apply operand_benign | by intros].
Qed.

Lemma list_set_benign {A} line (l : list A) i a :
  may_raise benign (list_set line l i a).
Proof. unfold list_set. by case_bool_decide. Qed.

Lemma tensors_benign line outs : may_raise benign (tensors line outs).
Proof.
  induction outs as [|[m|] outs IH]; simpl; try done.
  apply may_raise_bind; [done | by intros].
Qed.

Lemma cat_benign line outs : may_raise benign (cat line outs).
Proof.
  unfold cat. apply may_raise_bind; [apply tensors_benign|].
  by intros [|m ms] _.
Qed.

Lemma fresh_mean_benign line x index G F count :
  may_raise benign (fresh_mean line x index G F count).
Proof.
  unfold fresh_mean. apply may_raise_bind; [apply new_size_benign|].
  intros G' _. apply may_raise_bind; [apply scatter_reduce_benign|].
  intros mean _. apply may_raise_bind; [apply local_benign | by intros].
Qed.

Lemma degree_stage_benign self N index G :
  may_raise benign (degree_stage self N index G).
Proof.
  unfold degree_stage. destruct (need_degree self).
  - apply may_raise_bind; [apply new_size_benign|]. intros G' _.
    apply may_raise_bind; [apply scatter_add_benign | by intros].
  - destruct (requires_mask self); [|done].
    apply may_raise_bind; [apply new_size_benign|]. intros G' _.
    apply may_raise_bind; [apply index_put_false_benign | by intros].
Qed.

Lemma base_reduce_benign x index G F mask r :
  may_raise benign (base_reduce x index G F mask r).
Proof.
  unfold base_reduce. apply may_raise_bind; [apply new_size_benign|].
  intros G' _. apply may_raise_bind; [apply scatter_reduce_benign|].
  intros out _. destruct (negb _); [|done].
  apply may_raise_bind; [apply local_benign | by intros].
Qed.

Lemma base_loop_benign x index G F mask ops :
  may_raise benign (base_loop x index G F mask ops).
Proof.
  induction ops as [|[r|] ops IH]; simpl; [done| |].
  - apply may_raise_bind; [apply base_reduce_benign|]. intros out _.
    apply may_raise_bind; [apply IH | by intros].
  - apply may_raise_bind; [apply IH | by intros].
Qed.

(** The tactic of the stage lemmas: a stage is a sequence of benign
    steps. *)
Ltac benign_steps :=
  repeat first
    [ apply may_raise_Ok
    | apply benign_safe;
      first [ apply operand_benign | apply variance_of_benign | apply local_benign
            | apply list_set_benign
            | apply list_get_benign | apply fresh_mean_benign ]
    | apply may_raise_bind; [|intros ? _] ].

Lemma list_get_Ok {A} line (l : list A) i a :
  list_get line l i = Ok a -> l !! i = Some a.
Proof. unfold list_get. destruct (l !! i); by intros [= ->]. Qed.

(** The plan entry the derivation stage reads for class [c]. *)
Lemma stage_lookup aggrs c i line lk :
  build_aggr_index aggrs !! c = Some i ->
  list_get line (lookup_ops (plan_of aggrs)) i = Ok lk ->
  lk = (entry (build_aggr_index aggrs) c).2.
Proof.
  intros Hi%aggr_index_Some Hlk%list_get_Ok.
  rewrite (lookup_ops_lookup _ _ _ Hi) in Hlk. by injection Hlk.
Qed.

Lemma mean_stage_safe aggrs count outs :
  may_raise chain_safe (mean_stage (plan_of aggrs) count outs).
Proof.
  unfold mean_stage. simpl aggr_index.
  destruct (build_aggr_index aggrs !! MeanAggregation) as [i|] eqn:Hi; [|done].
  apply may_raise_bind; [apply benign_safe, list_get_benign|].
  intros lk ->%(stage_lookup _ _ _ _ _ Hi).
  unfold entry, plan_entry.
  destruct (build_aggr_index aggrs !! SumAggregation); simpl; benign_steps.
Qed.

Lemma var_stage_safe aggrs x index G F count outs :
  may_raise chain_safe (var_stage (plan_of aggrs) x index G F count outs).
Proof.
  unfold var_stage. simpl aggr_index.
  destruct (build_aggr_index aggrs !! VarAggregation) as [i|] eqn:Hi; [|done].
  apply may_raise_bind; [apply benign_safe, list_get_benign|].
  intros lk ->%(stage_lookup _ _ _ _ _ Hi).
  unfold entry, plan_entry.
  repeat destruct (build_aggr_index aggrs !! _); simpl; benign_steps.
Qed.

Lemma std_stage_safe aggrs x index G F count outs :
  may_raise chain_safe (std_stage (plan_of aggrs) x index G F count outs).
Proof.
  unfold std_stage. simpl aggr_index.
  destruct (build_aggr_index aggrs !! StdAggregation) as [i|] eqn:Hi; [|done].
  apply may_raise_bind; [apply benign_safe, list_get_benign|].
  intros lk ->%(stage_lookup _ _ _ _ _ Hi).
  apply may_raise_bind; [|intros; apply benign_safe, list_set_benign].
  unfold entry, plan_entry, std_variance.
  repeat destruct (build_aggr_index aggrs !! _); simpl; benign_steps.
Qed.

Lemma forward_safe aggrs x index G dim :
  may_raise chain_safe (forward (plan_of aggrs) x index G dim).
Proof.
  unfold forward.
  apply may_raise_bind.
  { destruct index; simpl; [done|]. intros [[? [=]]|[_ [[=]|[=]]]]. }
  intros _ _. apply may_raise_bind.
  { unfold assert_two_dimensional_input. case_bool_decide; simpl; [done|].
    intros [[[=] _]|[[=] _]]. }
  intros _ _. destruct x as [?|F rows|? ? ?], index as [index|]; simpl;
    try (intros [[[=] _]|[[=] _]]).
  apply may_raise_bind; [|intros; apply benign_safe, cat_benign].
  unfold forward_outs.
  apply may_raise_bind; [apply benign_safe, degree_stage_benign|]. intros cm _.
  apply may_raise_bind; [apply benign_safe, base_loop_benign|]. intros outs0 _.
  apply may_raise_bind; [apply mean_stage_safe|]. intros outs1 _.
  apply may_raise_bind; [apply var_stage_safe|]. intros outs2 _.
  apply std_stage_safe.
Qed.

(** C9: for a plan built by the constructor, the reuse target of Variance
    is Sum or Mean, the one of StdDev is Variance, Sum or Mean, and no
    invocation of [forward], on any input, raises one of the exceptions
    of the reuse chain (the assertion of line 209, the
    [NotImplementedError] of lines 228 and 253). *)
Theorem C9_reuse_chain_unreachable aggrs self :
  init aggrs = Ok self ->
  (forall (k : nat) c j,
     aggrs !! k = Some VarAggregation ->
     lookup_ops self !! k = Some (Some (c, j)) ->
     c = SumAggregation \/ c = MeanAggregation) /\
  (forall (k : nat) c j,
     aggrs !! k = Some StdAggregation ->
     lookup_ops self !! k = Some (Some (c, j)) ->
     c = VarAggregation \/ c = SumAggregation \/ c = MeanAggregation) /\
  (forall x index G dim e line,
     forward self x index G dim = Raise e line ->
     ~ reuse_chain_error e line).
Proof.
  intros (Hne & Hf & ->)%init_Ok. split_and!.
  - intros k c j Hk. rewrite (lookup_ops_lookup _ _ _ Hk).
    unfold entry, plan_entry.
    repeat destruct (build_aggr_index aggrs !! _); simpl; intros [=]; auto.
  - intros k c j Hk. rewrite (lookup_ops_lookup _ _ _ Hk).
    unfold entry, plan_entry.
    repeat destruct (build_aggr_index aggrs !! _); simpl; intros [=]; auto.
  - intros x index G dim e line Hraise.
    pose proof (forward_safe aggrs x index G dim) as H.
    by rewrite Hraise in H.
Qed.

Lemma C9_reuse_chain_unreachable_witness :
  let aggrs := [StdAggregation; MeanAggregation; VarAggregation] in
  let self := plan_of aggrs in
  init aggrs = Ok self /\
  lookup_ops self !! 2 = Some (Some (MeanAggregation, 1)) /\
  (MeanAggregation = SumAggregation \/ MeanAggregation = MeanAggregation) /\
  forward self (Tensor2 1 [[1]; [2]]%float) (Some [0; 5]%Z) 2 (-2)
    = Raise RuntimeError 160 /\
  ~ reuse_chain_error RuntimeError 160.
Proof.
  intros aggrs self.
  assert (init aggrs = Ok self) as Hinit by (vm_compute; reflexivity).
  destruct (C9_reuse_chain_unreachable aggrs self Hinit) as (Hvar & _ & Hsafe).
  assert (forward self (Tensor2 1 [[1]; [2]]%float) (Some [0; 5]%Z) 2 (-2)
          = Raise RuntimeError 160) as Hrun by (vm_compute; reflexivity).
  split_and!; [exact Hinit | reflexivity | | exact Hrun | ].
  - exact (Hvar 2 MeanAggregation 1 eq_refl eq_refl).
  - exact (Hsafe _ _ _ _ _ _ Hrun).
Defined.

(** ** The count (C7) *)

(** C7: when a degree-based kind (Mean, Variance, StdDev) is requested,
    the count every division of the derivation stage divides by is the
    clamped count, which is at least 1 for every group, hence not zero,
    and exactly 1 for a group without element. *)
Theorem C7_clamped_count aggrs self c N index G :
  init aggrs = Ok self ->
  c ∈ aggrs -> DEGREE_BASED_AGGRS c = true ->
  valid_index G index -> length index <= N ->
  exists count mask,
    degree_stage self N index G = Ok (Some count, mask) /\
    length count = G /\
    forall (g : nat) n, count !! g = Some n ->
      (1 <=? n)%float = true /\
      (n =? 0)%float = false /\
      (empty_group index g -> n = 1%float).
Proof.
  intros (Hne & Hf & ->)%init_Ok Hc Hdeg Hv Hlen.
  exists (clamped_count G index). eexists. split_and!.
  - rewrite degree_stage_valid by done. simpl.
    by rewrite (existsb_elem_of _ _ _ Hc Hdeg).
  - apply length_clamped_count.
  - intros g n Hn. split_and!.
    + by eapply clamped_count_ge_1.
    + unfold clamped_count in Hn. rewrite list_lookup_fmap in Hn.
      destruct (counts G index !! g); [|done]. injection Hn as <-.
      apply clamp_min1_nonzero.
    + intros Hemp.
      assert (g < G) as Hg.
      { apply lookup_lt_Some in Hn. by rewrite length_clamped_count in Hn. }
      rewrite clamped_count_empty in Hn by done. by injection Hn.
Qed.

Lemma C7_clamped_count_witness :
  let aggrs := [MinAggregation; MeanAggregation] in
  init aggrs = Ok (plan_of aggrs) /\
  exists count mask,
    degree_stage (plan_of aggrs) 3 [0; 2; 0]%Z 4 = Ok (Some count, mask) /\
    length count = 4 /\
    forall (g : nat) n, count !! g = Some n ->
      (1 <=? n)%float = true /\
      (n =? 0)%float = false /\
      (empty_group [0; 2; 0]%Z g -> n = 1%float).
Proof.
  intros aggrs.
  assert (init aggrs = Ok (plan_of aggrs)) as Hinit by (vm_compute; reflexivity).
  split; [exact Hinit|].
  apply (C7_clamped_count aggrs (plan_of aggrs) MeanAggregation 3 [0; 2; 0]%Z 4
           Hinit).
  - by_compute.
  - reflexivity.
  - unfold valid_index. repeat constructor; simpl; lia.
  - simpl. lia.
Defined.

(** ** Mean (C4) *)



(** ** The output blocks (C2, C8, C10) *)


(** The blocks of the output of a duplicate-free request. *)
Lemma forward_blocks aggrs self F x index G dim :
  init aggrs = Ok self -> NoDup aggrs -> valid_input F x index G ->
  exists out,
    forward self (Tensor2 F x) (Some index) G dim = Ok out /\
    shape G (length aggrs * F) out /\
    forall (k : nat) c, aggrs !! k = Some c ->
      block F k out = aggregate c F x index G.
Proof.
  intros Hinit Hnd Hvalid. eexists. split; [by apply forward_NoDup|].
  apply init_Ok in Hinit as (Hne & Hf & _). destruct Hvalid as (Hx & _ & _).
  pose proof (aggregate_shapes aggrs F x index G Hf Hx) as Hshapes.
  split.
  - rewrite <- (length_fmap (fun c => aggregate c F x index G) aggrs).
    apply shape_cat_value; [by destruct aggrs | done].
  - intros k c Hk. apply (block_cat_value G); [done|].
    by rewrite list_lookup_fmap, Hk.
Qed.



(** C8: the order property fails on the request [Sum, Mean, Mean].  The
    constructor accepts the request; the plan gives both Mean entries no
    base reduction of their own ("re-uses intermediate outputs from
    other aggregators", lines 97-98), but the dictionary of line 76 keeps
    the last position of a class only, so the derivation stage writes
    slot 2 and leaves slot 1 as [None]: on a valid input [forward] raises
    the [TypeError] of [torch.cat] at line 262 instead of returning a
    [G x (3 * F)] matrix. *)
Theorem C8_repeated_mean_raises :
  let aggrs := [SumAggregation; MeanAggregation; MeanAggregation] in
  let x := [[1]]%float in
  exists self,
    init aggrs = Ok self /\
    valid_input 1 x [0]%Z 1 /\
    reduce_ops self = [Some r_sum; None; None] /\
    aggr_index self !! MeanAggregation = Some 2 /\
    forward_outs self 1 x [0]%Z 1 = Ok [Some [[1]]; None; Some [[1]]]%float /\
    forward self (Tensor2 1 x) (Some [0]%Z) 1 (-2) = Raise TypeError 262.
Proof.
  intros aggrs x. exists (plan_of aggrs). split_and!.
  - vm_compute. reflexivity.
  - unfold valid_input, valid_index. split_and!; repeat constructor; simpl; lia.
  - vm_compute. reflexivity.
  - vm_compute. reflexivity.
  - vm_compute. reflexivity.
  - vm_compute. reflexivity.
Qed.

(** C10: for a duplicate-free list of kinds and a permutation of it, run
    on the same valid input, the block of each kind is the same matrix in
    both outputs, wherever the kind stands in either request. *)
Theorem C10_permutation_invariance aggrs aggrs' self F x index G :
  init aggrs = Ok self -> NoDup aggrs -> aggrs ≡ₚ aggrs' ->
  valid_input F x index G ->
  exists self' out out',
    init aggrs' = Ok self' /\
    forward self (Tensor2 F x) (Some index) G (-2) = Ok out /\
    forward self' (Tensor2 F x) (Some index) G (-2) = Ok out' /\
    forall (k k' : nat) c,
      aggrs !! k = Some c -> aggrs' !! k' = Some c ->
      block F k out = block F k' out'.
Proof.
  intros Hinit Hnd Hperm Hvalid.
  assert (init aggrs' = Ok (plan_of aggrs')) as Hinit'.
  { apply init_Ok in Hinit as (Hne & Hf & _). apply init_fusable.
    - intros ->. by apply Permutation_nil_r in Hperm.
    - rewrite forallb_forall in Hf. apply forallb_forall. intros c Hc.
      apply Hf. apply list_elem_of_In. rewrite Hperm. by apply list_elem_of_In. }
  assert (NoDup aggrs') as Hnd' by (by rewrite <- Hperm).
  destruct (forward_blocks aggrs self F x index G (-2) Hinit Hnd Hvalid)
    as (out & Hout & _ & Hblocks).
  destruct (forward_blocks aggrs' _ F x index G (-2) Hinit' Hnd' Hvalid)
    as (out' & Hout' & _ & Hblocks').
  exists (plan_of aggrs'), out, out'. split_and!; [done..|].
  intros k k' c Hk Hk'. by rewrite (Hblocks k c Hk), (Hblocks' k' c Hk').
Qed.

Lemma C10_permutation_invariance_witness :
  let aggrs := [SumAggregation; StdAggregation; MeanAggregation] in
  let aggrs' := [MeanAggregation; SumAggregation; StdAggregation] in
  let x := [[1; 2]; [3; 4]; [5; 6]]%float in
  let index := [1; 1; 0]%Z in
  init aggrs = Ok (plan_of aggrs) /\ NoDup aggrs /\ aggrs ≡ₚ aggrs' /\
  valid_input 2 x index 3 /\
  exists self' out out',
    init aggrs' = Ok self' /\
    forward (plan_of aggrs) (Tensor2 2 x) (Some index) 3 (-2) = Ok out /\
    forward self' (Tensor2 2 x) (Some index) 3 (-2) = Ok out' /\
    forall (k k' : nat) c,
      aggrs !! k = Some c -> aggrs' !! k' = Some c ->
      block 2 k out = block 2 k' out'.
Proof.
  intros aggrs aggrs' x index.
  assert (init aggrs = Ok (plan_of aggrs)) as Hinit by (vm_compute; reflexivity).
  assert (NoDup aggrs) as Hnd by by_compute.
  assert (aggrs ≡ₚ aggrs') as Hperm by by_compute.
  assert (valid_input 2 x index 3) as Hvalid.
  { unfold valid_input, valid_index. split_and!; repeat constructor; simpl; lia. }
  split_and!; [exact Hinit | exact Hnd | exact Hperm | exact Hvalid |].
  exact (C10_permutation_invariance aggrs aggrs' (plan_of aggrs) 2 x index 3
           Hinit Hnd Hperm Hvalid).
Defined.

(** ** Groups without element (C1) *)

(** C1, as the code has it: on a valid input, when the invocation
    returns (as it does for every duplicate-free request), in the output
    row of a group without element the block of every requested kind
    other than StdDev is the zero vector, for Min, Max, Product, Sum,
    Mean and Variance alike; the block of StdDev, where it is the only or
    the last StdDev of the request, holds [sqrt(1e-5)] in every column,
    the square root of the epsilon added to the zero variance; the block
    of an earlier StdDev of a request that repeats it is the zero vector
    too. *)
Theorem C1_empty_group_rows aggrs self F x index G g :
  init aggrs = Ok self -> valid_input F x index G ->
  g < G -> empty_group index g ->
  (NoDup aggrs ->
   exists out, forward self (Tensor2 F x) (Some index) G (-2) = Ok out) /\
  (forall out,
     forward self (Tensor2 F x) (Some index) G (-2) = Ok out ->
     exists r,
       out !! g = Some r /\ length r = length aggrs * F /\
       forall (k : nat) c, aggrs !! k = Some c ->
         (c <> StdAggregation ->
            take F (drop (k * F) r) = replicate F 0%float) /\
         (c = StdAggregation ->
          (forall j : nat, k < j -> aggrs !! j <> Some StdAggregation) ->
            take F (drop (k * F) r) = replicate F (sqrt Scalar.eps)) /\
         (c = StdAggregation ->
          (exists j : nat, k < j /\ aggrs !! j = Some StdAggregation) ->
            take F (drop (k * F) r) = replicate F 0%float)).
Proof.
  intros Hinit Hvalid Hg Hemp. split.
  { intros Hnd. eexists. by apply forward_NoDup. }
  apply init_Ok in Hinit as (Hne & Hf & ->).
  destruct Hvalid as (Hx & Hlen & Hv).
  intros out Hout.
  rewrite forward_2d, forward_outs_valid in Hout by (done || lia).
  apply cat_Ok in Hout as (ms & Hms & Hne' & ->).
  assert (forall (k : nat) m, ms !! k = Some m ->
            length m = G /\
            row g m = replicate F
              (if decide (build_aggr_index aggrs !! StdAggregation = Some k)
               then sqrt Scalar.eps else 0%float)) as Hrow.
  { intros k m Hk. apply (final_outs_empty_row F x index G g Hv Hg Hemp aggrs).
    by rewrite Hms, list_lookup_fmap, Hk. }
  assert (length ms = length aggrs) as Hlen_ms.
  { rewrite <- (length_final_outs aggrs F x index G), Hms.
    by rewrite length_fmap. }
  assert (Forall (fun r => length r = F) (row g <$> ms)) as Hrows.
  { apply Forall_fmap, Forall_lookup. intros k m Hk. simpl.
    destruct (Hrow k m Hk) as [_ ->]. by rewrite length_replicate. }
  exists (mjoin (row g <$> ms)). split_and!.
  - apply (cat_value_lookup G); [done| |done].
    apply Forall_lookup. intros k m Hk. by destruct (Hrow k m Hk).
  - by rewrite (length_mjoin_rows F), length_fmap, Hlen_ms.
  - intros k c Hk.
    destruct (lookup_lt_is_Some_2 ms k) as [m Hm].
    { rewrite Hlen_ms. by eapply lookup_lt_Some. }
    assert (take F (drop (k * F) (mjoin (row g <$> ms))) = row g m) as ->.
    { apply block_mjoin; [done|]. by rewrite list_lookup_fmap, Hm. }
    destruct (Hrow k m Hm) as [_ ->]. split_and!.
    + intros Hc. rewrite decide_False; [done|].
      intros Hs%aggr_index_Some. congruence.
    + intros -> Hlast. rewrite decide_True; [done|].
      by apply aggr_index_last.
    + intros -> (j & Hkj & Hj). rewrite decide_False; [done|].
      intros [_ Hlast]%aggr_index_last. by apply (Hlast j).
Qed.

Lemma C1_empty_group_rows_witness :
  let aggrs := [StdAggregation; MinAggregation; StdAggregation;
                MeanAggregation] in
  let x := [[1; 2]; [3; 4]]%float in
  let index := [0; 2]%Z in
  init aggrs = Ok (plan_of aggrs) /\ valid_input 2 x index 3 /\
  1 < 3 /\ empty_group index 1 /\
  (NoDup aggrs ->
   exists out, forward (plan_of aggrs) (Tensor2 2 x) (Some index) 3 (-2) = Ok out) /\
  (forall out,
     forward (plan_of aggrs) (Tensor2 2 x) (Some index) 3 (-2) = Ok out ->
     exists r,
       out !! 1 = Some r /\ length r = length aggrs * 2 /\
       forall (k : nat) c, aggrs !! k = Some c ->
         (c <> StdAggregation ->
            take 2 (drop (k * 2) r) = replicate 2 0%float) /\
         (c = StdAggregation ->
          (forall j : nat, k < j -> aggrs !! j <> Some StdAggregation) ->
            take 2 (drop (k * 2) r) = replicate 2 (sqrt Scalar.eps)) /\
         (c = StdAggregation ->
          (exists j : nat, k < j /\ aggrs !! j = Some StdAggregation) ->
            take 2 (drop (k * 2) r) = replicate 2 0%float)) /\
  exists out,
    forward (plan_of aggrs) (Tensor2 2 x) (Some index) 3 (-2) = Ok out.
Proof.
  intros aggrs x index.
  assert (init aggrs = Ok (plan_of aggrs)) as Hinit by (vm_compute; reflexivity).
  assert (valid_input 2 x index 3) as Hvalid.
  { unfold valid_input, valid_index. split_and!; repeat constructor; simpl; lia. }
  assert (1 < 3) as Hg by lia.
  assert (empty_group index 1) as Hemp by by_compute.
  split_and!; [exact Hinit | exact Hvalid | exact Hg | exact Hemp | | |].
  - apply (C1_empty_group_rows aggrs (plan_of aggrs) 2 x index 3 1
             Hinit Hvalid Hg Hemp).
  - apply (C1_empty_group_rows aggrs (plan_of aggrs) 2 x index 3 1
             Hinit Hvalid Hg Hemp).
  - eexists. vm_compute. reflexivity.
Defined.

(** C1 as stated fails for StdDev: with the request [StdDev] and two
    groups of which group 1 has no element, row 1 of the output is
    [sqrt(1e-5)], which is not zero. *)
Lemma C1_counterexample :
  let aggrs := [StdAggregation] in
  init aggrs = Ok (plan_of aggrs) /\
  valid_input 1 [[1]]%float [0]%Z 2 /\
  empty_group [0]%Z 1 /\
  exists out s,
    forward (plan_of aggrs) (Tensor2 1 [[1]]%float) (Some [0]%Z) 2 (-2) = Ok out /\
    out !! 1 = Some [s] /\
    (s =? 0)%float = false.
Proof.
  intros aggrs. split_and!.
  - vm_compute. reflexivity.
  - unfold valid_input, valid_index. split_and!; repeat constructor; simpl; lia.
  - by_compute.
  - exists [[sqrt Scalar.eps]; [sqrt Scalar.eps]], (sqrt Scalar.eps).
    split_and!; vm_compute; reflexivity.
Qed.

(** ** StdDev (C6) *)




(** ** Invalid inputs (C3) *)






(** * Further properties of the constructor and of the forward pass *)

(** ** The constructor *)

(** X1: the constructor rejects the empty request at line 71, rejects a
    request with a class outside the fusable set at line 80, and accepts
    every other request; it raises nothing else (no [KeyError] of the
    table [REDUCE]). *)
Theorem X1_init_errors aggrs :
  (aggrs = [] -> init aggrs = Raise ValueError 71) /\
  (aggrs <> [] -> (exists c, c ∈ aggrs /\ FUSABLE_AGGRS c = false) ->
     init aggrs = Raise ValueError 80) /\
  (aggrs <> [] -> (forall c, c ∈ aggrs -> FUSABLE_AGGRS c = true) ->
     exists self, init aggrs = Ok self /\ aggr_cls self = aggrs).
Proof.
  split_and!.
  - by intros ->.
  - intros Hne (c & Hc & Hfus). unfold init.
    rewrite bool_decide_eq_false_2 by (by destruct aggrs).
    assert (forallb FUSABLE_AGGRS aggrs = false) as ->; [|done].
    apply not_true_is_false. intros Hall. rewrite forallb_forall in Hall.
    apply list_elem_of_In, Hall in Hc. congruence.
  - intros Hne Hall. exists (plan_of aggrs). split; [|done].
    apply init_fusable; [done|]. apply forallb_forall.
    intros c Hc. by apply Hall, list_elem_of_In.
Qed.

Lemma X1_init_errors_witness :
  init [] = Raise ValueError 71 /\
  init [SumAggregation; OtherAggregation] = Raise ValueError 80 /\
  exists self, init [VarAggregation; SumAggregation] = Ok self /\
               aggr_cls self = [VarAggregation; SumAggregation].
Proof.
  split_and!.
  - by apply (X1_init_errors []).
  - apply (X1_init_errors [SumAggregation; OtherAggregation]); [done|].
    exists OtherAggregation. split; [by right; left | done].
  - apply (X1_init_errors [VarAggregation; SumAggregation]); [done|].
    intros c [->|[->|[]%elem_of_nil]%elem_of_cons]%elem_of_cons; done.
Defined.

(** X2: the dictionary [aggr_index] maps every requested class to the
    position of its last occurrence in the request, and has no other
    key. *)
Theorem X2_aggr_index_last_occurrence aggrs self :
  init aggrs = Ok self ->
  (forall c (i : nat),
     aggr_index self !! c = Some i <->
     aggrs !! i = Some c /\ forall j : nat, i < j -> aggrs !! j <> Some c) /\
  (forall c, aggr_index self !! c = None <-> c ∉ aggrs).
Proof.
  intros (_ & _ & ->)%init_Ok. split.
  - intros c i. apply aggr_index_last.
  - intros c. apply aggr_index_None.
Qed.

Lemma X2_aggr_index_last_occurrence_witness :
  let aggrs := [MeanAggregation; SumAggregation; MeanAggregation] in
  init aggrs = Ok (plan_of aggrs) /\
  (aggr_index (plan_of aggrs) !! MeanAggregation = Some 2 <->
   aggrs !! 2 = Some MeanAggregation /\
   forall j : nat, 2 < j -> aggrs !! j <> Some MeanAggregation) /\
  (aggr_index (plan_of aggrs) !! MaxAggregation = None <->
   MaxAggregation ∉ aggrs).
Proof.
  intros aggrs.
  assert (init aggrs = Ok (plan_of aggrs)) as Hinit by (vm_compute; reflexivity).
  destruct (X2_aggr_index_last_occurrence aggrs (plan_of aggrs) Hinit)
    as [Hsome Hnone].
  split_and!; [exact Hinit | apply Hsome | apply Hnone].
Defined.

(** ** The plan *)

(** X3: the plan has one entry per requested kind, and a kind that is not
    degree-based (Sum, Min, Max, Product) always has the base reduction
    the table [REDUCE] gives it and reuses nothing, whatever else is
    requested. *)
Theorem X3_base_kinds_own_reduce aggrs self :
  init aggrs = Ok self ->
  length (reduce_ops self) = length aggrs /\
  length (lookup_ops self) = length aggrs /\
  forall (k : nat) c, aggrs !! k = Some c ->
    DEGREE_BASED_AGGRS c = false ->
    exists r, REDUCE 146 c = Ok r /\
              base_reduce_of self k (Some r) /\ no_reuse self k.
Proof.
  intros (Hne & Hf & ->)%init_Ok. split_and!.
  - simpl. by rewrite length_fmap.
  - simpl. by rewrite length_fmap.
  - intros k c Hk Hdeg.
    assert (FUSABLE_AGGRS c = true) as Hc.
    { rewrite forallb_forall in Hf. apply Hf.
      by eapply list_elem_of_In, list_elem_of_lookup_2. }
    destruct (plan_entry_lookup _ _ _ Hk) as [Hr Hl].
    unfold no_reuse. rewrite Hl. revert Hr. unfold entry, plan_entry.
    destruct c; try done; simpl; eauto.
Qed.

Lemma X3_base_kinds_own_reduce_witness :
  let aggrs := [MeanAggregation; MinAggregation; SumAggregation] in
  init aggrs = Ok (plan_of aggrs) /\
  length (reduce_ops (plan_of aggrs)) = length aggrs /\
  length (lookup_ops (plan_of aggrs)) = length aggrs /\
  forall (k : nat) c, aggrs !! k = Some c ->
    DEGREE_BASED_AGGRS c = false ->
    exists r, REDUCE 146 c = Ok r /\
              base_reduce_of (plan_of aggrs) k (Some r) /\
              no_reuse (plan_of aggrs) k.
Proof.
  intros aggrs.
  assert (init aggrs = Ok (plan_of aggrs)) as Hinit by (vm_compute; reflexivity).
  split; [exact Hinit|].
  exact (X3_base_kinds_own_reduce aggrs (plan_of aggrs) Hinit).
Defined.

Lemma entry_target d c c' j :
  (entry d c).2 = Some (c', j) ->
  d !! c' = Some j /\ stage_rank c' < stage_rank c.
Proof.
  unfold entry, plan_entry.
  destruct (d !! SumAggregation) eqn:Hs, (d !! MeanAggregation) eqn:Hm,
    (d !! VarAggregation) eqn:Hv, c; simpl; try done;
    intros [= <- <-]; split; (done || (simpl; lia)).
Qed.

Lemma entry_no_reduce d c :
  FUSABLE_AGGRS c = true -> (entry d c).1 = None ->
  exists c' j, (entry d c).2 = Some (c', j).
Proof.
  unfold entry, plan_entry.
  destruct c; try done; simpl; intros _;
    repeat destruct (d !! _); simpl; try done; eauto.
Qed.

(** X4: the reuse targets of a plan are well formed.  A target [(c', j)]
    recorded for an entry of class [c] is the position the dictionary
    records for [c'], which holds class [c'], and [c'] is computed in an
    earlier stage than [c] (base reductions, then Mean, Variance,
    StdDev): no entry depends on itself or on a later stage.  An entry
    without base reduction of its own always has a target, and the plan
    has at least one base reduction. *)
Theorem X4_reuse_targets_well_formed aggrs self :
  init aggrs = Ok self ->
  (forall (k : nat) c c' j,
     aggrs !! k = Some c ->
     lookup_ops self !! k = Some (Some (c', j)) ->
     aggr_index self !! c' = Some j /\ aggrs !! j = Some c' /\
     stage_rank c' < stage_rank c) /\
  (forall k : nat, base_reduce_of self k None -> exists c', reuses self k c') /\
  (exists (k : nat) r, base_reduce_of self k (Some r)).
Proof.
  intros (Hne & Hf & ->)%init_Ok. split_and!.
  - intros k c c' j Hk. rewrite (lookup_ops_lookup _ _ _ Hk).
    intros [= He]. apply entry_target in He as [Hj Hrank].
    split_and!; [done | by apply aggr_index_Some | done].
  - intros k Hr. unfold base_reduce_of in Hr. simpl in Hr.
    rewrite list_lookup_fmap in Hr.
    destruct (aggrs !! k) as [c|] eqn:Hk; [|done]. injection Hr as Hr.
    assert (FUSABLE_AGGRS c = true) as Hc.
    { rewrite forallb_forall in Hf. apply Hf.
      by eapply list_elem_of_In, list_elem_of_lookup_2. }
    destruct (entry_no_reduce _ c Hc Hr) as (c' & j & He).
    exists c'. eapply reuses_intro; [done| |done].
    by apply entry_target in He as [? _].
  - (* the class of least stage in the request has a reduction *)
    assert (forall l, l <> [] ->
              exists c, c ∈ l /\ forall c', c' ∈ l -> stage_rank c <= stage_rank c')
      as Hmin.
    { induction l as [|c l IH]; [done|]. intros _.
      destruct l as [|c0 l].
      - exists c. split; [by left|]. by intros c' ->%list_elem_of_singleton.
      - destruct (IH ltac:(done)) as (m & Hm & Hle).
        destruct (decide (stage_rank c <= stage_rank m)).
        + exists c. split; [by left|]. intros c' [->|Hc']%elem_of_cons; [done|].
          specialize (Hle c' Hc'). lia.
        + exists m. split; [by right|]. intros c' [->|Hc']%elem_of_cons; [lia|].
          by apply Hle. }
    destruct (Hmin aggrs Hne) as (c & Hc & Hle).
    apply list_elem_of_lookup in Hc as Hk. destruct Hk as [k Hk].
    assert (FUSABLE_AGGRS c = true) as Hfc.
    { rewrite forallb_forall in Hf. by apply Hf, list_elem_of_In. }
    destruct (plan_entry_lookup _ _ _ Hk) as [Hr _].
    destruct ((entry (build_aggr_index aggrs) c).1) as [r|] eqn:He.
    { by exists k, r. }
    destruct (entry_no_reduce _ c Hfc He) as (c' & j & Ht).
    apply entry_target in Ht as [Hj Hrank].
    apply aggr_index_Some, list_elem_of_lookup_2, Hle in Hj. lia.
Qed.

Lemma X4_reuse_targets_well_formed_witness :
  let aggrs := [StdAggregation; VarAggregation; MeanAggregation; SumAggregation] in
  init aggrs = Ok (plan_of aggrs) /\
  lookup_ops (plan_of aggrs) !! 0 = Some (Some (VarAggregation, 1)) /\
  (aggr_index (plan_of aggrs) !! VarAggregation = Some 1 /\
   aggrs !! 1 = Some VarAggregation /\
   stage_rank VarAggregation < stage_rank StdAggregation) /\
  (exists c', reuses (plan_of aggrs) 0 c') /\
  (exists (k : nat) r, base_reduce_of (plan_of aggrs) k (Some r)).
Proof.
  intros aggrs.
  assert (init aggrs = Ok (plan_of aggrs)) as Hinit by (vm_compute; reflexivity).
  destruct (X4_reuse_targets_well_formed aggrs (plan_of aggrs) Hinit)
    as (Htarget & Hnone & Hsome).
  split; [exact Hinit|]. split; [reflexivity|].
  split; [exact (Htarget 0 StdAggregation VarAggregation 1 eq_refl eq_refl)|].
  split; [apply Hnone; reflexivity | exact Hsome].
Defined.

(** ** The count, the mask and the base reductions *)

Lemma existsb_elem_of_iff {A} (f : A -> bool) (l : list A) :
  existsb f l = true <-> exists a, a ∈ l /\ f a = true.
Proof.
  rewrite existsb_exists. split; intros (a & Ha & Hf); exists a;
    (split; [by apply list_elem_of_In | done]).
Qed.

(** X5: on a valid index the count is assigned exactly when a
    degree-based kind is requested and the mask exactly when a kind that
    needs masking is; the mask marks the groups without element, whether
    it is computed from the count (line 162) or by indexed assignment
    (lines 166-167). *)
Theorem X5_count_and_mask aggrs self N index G :
  init aggrs = Ok self -> valid_index G index -> length index <= N ->
  exists count mask,
    degree_stage self N index G = Ok (count, mask) /\
    (is_Some count <-> exists c, c ∈ aggrs /\ DEGREE_BASED_AGGRS c = true) /\
    (is_Some mask <-> exists c, c ∈ aggrs /\ MASK_REQUIRED_AGGRS c = true) /\
    forall m, mask = Some m ->
      length m = G /\
      forall g : nat, g < G ->
        m !! g = Some (bool_decide (empty_group index g)).
Proof.
  intros (Hne & Hf & ->)%init_Ok Hv Hlen.
  eexists _, _. split; [by apply degree_stage_valid|]. simpl. split_and!.
  - rewrite <- existsb_elem_of_iff.
    destruct (existsb DEGREE_BASED_AGGRS aggrs); split; (done || by intros []).
  - rewrite <- existsb_elem_of_iff.
    destruct (existsb MASK_REQUIRED_AGGRS aggrs); split; (done || by intros []).
  - intros m Hm. destruct (existsb MASK_REQUIRED_AGGRS aggrs); [|done].
    injection Hm as <-. split; [apply length_empty_mask|].
    intros g Hg. unfold empty_mask.
    by rewrite list_lookup_fmap, lookup_seq_lt.
Qed.

Lemma X5_count_and_mask_witness :
  let aggrs := [MaxAggregation; SumAggregation] in
  init aggrs = Ok (plan_of aggrs) /\
  exists count mask,
    degree_stage (plan_of aggrs) 3 [2; 0; 2]%Z 3 = Ok (count, mask) /\
    (is_Some count <-> exists c, c ∈ aggrs /\ DEGREE_BASED_AGGRS c = true) /\
    (is_Some mask <-> exists c, c ∈ aggrs /\ MASK_REQUIRED_AGGRS c = true) /\
    forall m, mask = Some m ->
      length m = 3 /\
      forall g : nat, g < 3 ->
        m !! g = Some (bool_decide (empty_group [2; 0; 2]%Z g)).
Proof.
  intros aggrs.
  assert (init aggrs = Ok (plan_of aggrs)) as Hinit by (vm_compute; reflexivity).
  split; [exact Hinit|].
  apply (X5_count_and_mask aggrs (plan_of aggrs) 3 [2; 0; 2]%Z 3 Hinit).
  - unfold valid_index. repeat constructor; simpl; lia.
  - simpl. lia.
Defined.

(** X6: every base reduction of the plan reduces each group on its own.
    On a valid input it returns a matrix of [G] rows; the row of a group
    with elements is the fill value combined, column by column, with the
    rows of that group in their order (the squared rows for 'pow_sum'),
    untouched by the other groups and by the mask; the row of a group
    without element is zero. *)
Theorem X6_base_reduce_per_group aggrs self F x index G count mask r :
  init aggrs = Ok self -> valid_input F x index G ->
  degree_stage self (length x) index G = Ok (count, mask) ->
  Some r ∈ reduce_ops self ->
  exists out,
    base_reduce x index G F mask r = Ok out /\
    length out = G /\
    forall g : nat, g < G ->
      let r' := if decide (r = r_pow_sum) then r_sum else r in
      let src := if decide (r = r_pow_sum) then mmul x x else x in
      out !! g =
      Some (if decide (empty_group index g) then replicate F 0%float
            else foldl (zip_with (reduce_fn r')) (replicate F (fill_value r'))
                       (group_rows index src g)).
Proof.
  intros (Hne & Hf & ->)%init_Ok (Hx & Hlen & Hv) Hdeg Hr.
  rewrite degree_stage_valid in Hdeg by (done || lia).
  injection Hdeg as _ <-.
  exists (base_value x index G F r). split_and!.
  - apply base_reduce_valid; [done | lia |]. intros Hn.
    simpl in Hr. apply list_elem_of_fmap in Hr as (c & Hc & Hin).
    symmetry in Hc. apply (entry_needs_mask _ _ _ Hc) in Hn.
    simpl. by rewrite (existsb_elem_of _ _ _ Hin Hn).
  - apply length_base_value.
  - intros g Hg. simpl. by apply base_value_group.
Qed.

Lemma X6_base_reduce_per_group_witness :
  let aggrs := [MinAggregation; VarAggregation] in
  let x := [[1; 2]; [3; 4]; [5; 6]]%float in
  let index := [2; 0; 2]%Z in
  init aggrs = Ok (plan_of aggrs) /\ valid_input 2 x index 3 /\
  exists count mask out,
    degree_stage (plan_of aggrs) (length x) index 3 = Ok (count, mask) /\
    Some r_amin ∈ reduce_ops (plan_of aggrs) /\
    base_reduce x index 3 2 mask r_amin = Ok out /\
    length out = 3 /\
    forall g : nat, g < 3 ->
      out !! g =
      Some (if decide (empty_group index g) then replicate 2 0%float
            else foldl (zip_with Scalar.amin) (replicate 2 infinity)
                       (group_rows index x g)).
Proof.
  intros aggrs x index.
  assert (init aggrs = Ok (plan_of aggrs)) as Hinit by (vm_compute; reflexivity).
  assert (valid_input 2 x index 3) as Hvalid.
  { unfold valid_input, valid_index. split_and!; repeat constructor; simpl; lia. }
  assert (Some r_amin ∈ reduce_ops (plan_of aggrs)) as Hr by by_compute.
  destruct (degree_stage (plan_of aggrs) (length x) index 3)
    as [e l|[count mask]] eqn:Hdeg; [by vm_compute in Hdeg|].
  destruct (X6_base_reduce_per_group aggrs (plan_of aggrs) 2 x index 3
              count mask r_amin Hinit Hvalid Hdeg Hr) as (out & Hout & Hlen & Hrows).
  split_and!; [exact Hinit | exact Hvalid |].
  exists count, mask, out. split_and!; [reflexivity | exact Hr | exact Hout | exact Hlen |].
  intros g Hg. exact (Hrows g Hg).
Defined.

(** ** Requests with a repeated kind *)

Lemma tensors_None line (outs : list (option matrix)) :
  None ∈ outs -> tensors line outs = Raise TypeError line.
Proof.
  induction outs as [|[m|] outs IH]; simpl.
  - by intros ?%elem_of_nil.
  - intros [?|Hin]%elem_of_cons; [done|]. by rewrite IH.
  - done.
Qed.

Lemma tensors_all_Some (outs : list (option matrix)) :
  None ∉ outs -> exists ms, outs = Some <$> ms.
Proof.
  induction outs as [|[m|] outs IH]; intros Hnone.
  - by exists [].
  - apply not_elem_of_cons in Hnone as [_ Hnone].
    destruct (IH Hnone) as [ms ->]. by exists (m :: ms).
  - destruct Hnone. by left.
Qed.

Lemma fusable_lookup aggrs (k : nat) c :
  forallb FUSABLE_AGGRS aggrs = true -> aggrs !! k = Some c ->
  FUSABLE_AGGRS c = true.
Proof.
  intros Hf Hk. rewrite forallb_forall in Hf. apply Hf.
  by eapply list_elem_of_In, list_elem_of_lookup_2.
Qed.

(** A slot that is not the one the dictionary records for its class is
    left as the base reducer wrote it. *)
Lemma final_outs_unrecorded aggrs F x index G (k : nat) c :
  aggrs !! k = Some c -> build_aggr_index aggrs !! c <> Some k ->
  final_outs aggrs F x index G !! k =
  Some (base_value x index G F <$> (entry (build_aggr_index aggrs) c).1).
Proof.
  intros Hk Hd. unfold final_outs.
  do 3 (rewrite slot_lookup_ne
          by (intros Hs; apply aggr_index_Some in Hs as Hs'; congruence)).
  by apply base_outs_lookup.
Qed.

Lemma final_outs_recorded aggrs F x index G (k : nat) c :
  forallb FUSABLE_AGGRS aggrs = true ->
  build_aggr_index aggrs !! c = Some k ->
  final_outs aggrs F x index G !! k = Some (Some (aggregate c F x index G)).
Proof.
  intros Hf Hd.
  pose proof (fusable_lookup _ _ _ Hf (aggr_index_Some _ _ _ Hd)) as Hc.
  destruct (DEGREE_BASED_AGGRS c) eqn:Hdeg.
  - destruct c; try done.
    + by apply final_outs_mean.
    + by apply final_outs_var.
    + by apply final_outs_std.
  - by apply final_outs_base.
Qed.

Lemma final_outs_dangling aggrs F x index G (k : nat) :
  forallb FUSABLE_AGGRS aggrs = true ->
  final_outs aggrs F x index G !! k = Some None <-> dangling (plan_of aggrs) k.
Proof.
  intros Hf. unfold dangling. simpl. split.
  - intros Hk.
    assert (k < length aggrs) as Hlt.
    { rewrite <- (length_final_outs aggrs F x index G).
      by eapply lookup_lt_Some. }
    destruct (lookup_lt_is_Some_2 aggrs k Hlt) as [c Hc].
    exists c. split; [done|].
    destruct (decide (build_aggr_index aggrs !! c = Some k)) as [Hd|Hd].
    { rewrite (final_outs_recorded _ _ _ _ _ _ _ Hf Hd) in Hk. done. }
    split; [|done].
    rewrite (final_outs_unrecorded _ _ _ _ _ _ _ Hc Hd) in Hk.
    rewrite list_lookup_fmap, Hc. simpl.
    by destruct ((entry (build_aggr_index aggrs) c).1).
  - intros (c & Hc & Hr & Hd).
    rewrite (final_outs_unrecorded _ _ _ _ _ _ _ Hc Hd).
    rewrite list_lookup_fmap, Hc in Hr. injection Hr as ->. done.
Qed.

Lemma final_outs_shapes aggrs F x index G (k : nat) m :
  Forall (fun row => length row = F) x ->
  final_outs aggrs F x index G !! k = Some (Some m) -> shape G F m.
Proof.
  intros Hx [[_ ->]|[_ [->|[->|[r ->]]]]]%final_outs_cases.
  - by apply shape_mstd, shape_var_value.
  - by apply shape_var_value.
  - by apply shape_mean_value.
  - by apply shape_base_value.
Qed.

(** Which positions dangle: an earlier occurrence of a repeated Mean when
    Sum is requested, or of a repeated StdDev when Variance is. *)
Lemma dangling_iff aggrs (k : nat) :
  forallb FUSABLE_AGGRS aggrs = true ->
  dangling (plan_of aggrs) k <->
  exists c c' (j : nat),
    aggrs !! k = Some c /\
    ((c = MeanAggregation /\ c' = SumAggregation) \/
     (c = StdAggregation /\ c' = VarAggregation)) /\
    c' ∈ aggrs /\ k < j /\ aggrs !! j = Some c.
Proof.
  intros Hf. unfold dangling. simpl. split.
  - intros (c & Hc & Hr & Hd).
    rewrite list_lookup_fmap, Hc in Hr. injection Hr as Hr.
    assert (is_Some (build_aggr_index aggrs !! c)) as [j Hj].
    { apply aggr_index_is_Some. by eapply list_elem_of_lookup_2. }
    apply aggr_index_last in Hj as Hlast. destruct Hlast as [Hjc Hlast].
    assert (k < j) as Hkj.
    { destruct (decide (k < j)); [done|].
      destruct (decide (k = j)) as [->|]; [done|].
      destruct (Hlast k); [lia | done]. }
    pose proof (fusable_lookup _ _ _ Hf Hc) as Hfc.
    revert Hr. unfold entry, plan_entry.
    destruct (build_aggr_index aggrs !! SumAggregation) eqn:Hs,
      (build_aggr_index aggrs !! MeanAggregation) eqn:Hm,
      (build_aggr_index aggrs !! VarAggregation) eqn:Hvar, c; simpl;
      try done; intros _.
    all: first
        [ exists MeanAggregation, SumAggregation, j;
          split_and!; [done | by left | apply aggr_index_is_Some; eauto | done..]
        | exists StdAggregation, VarAggregation, j;
          split_and!; [done | by right | apply aggr_index_is_Some; eauto | done..] ].
  - intros (c & c' & j & Hc & Hcases & Hc' & Hkj & Hj).
    exists c. split; [done|]. split.
    + rewrite list_lookup_fmap, Hc. simpl. f_equal.
      apply aggr_index_is_Some in Hc' as [i Hi]. unfold entry, plan_entry.
      destruct Hcases as [[-> ->]|[-> ->]]; by rewrite Hi.
    + intros [_ Hlast]%aggr_index_last. by apply (Hlast j).
Qed.

(** X7: on a valid input [forward] either returns a [G x (K * F)] matrix
    or raises the [TypeError] of [torch.cat] (line 262), and nothing
    else.  It raises exactly when some slot of [outs] is never written:
    when Mean is repeated in a request that has Sum, or StdDev is repeated
    in a request that has Variance. *)
Theorem X7_forward_returns_or_cat_fails aggrs self F x index G :
  init aggrs = Ok self -> valid_input F x index G ->
  (forall k : nat,
     dangling self k <->
     exists c c' (j : nat),
       aggrs !! k = Some c /\
       ((c = MeanAggregation /\ c' = SumAggregation) \/
        (c = StdAggregation /\ c' = VarAggregation)) /\
       c' ∈ aggrs /\ k < j /\ aggrs !! j = Some c) /\
  ((exists k, dangling self k) ->
     forward self (Tensor2 F x) (Some index) G (-2) = Raise TypeError 262) /\
  ((forall k, ~ dangling self k) ->
     exists out,
       forward self (Tensor2 F x) (Some index) G (-2) = Ok out /\
       length out = G /\
       Forall (fun row => length row = length aggrs * F) out).
Proof.
  intros (Hne & Hf & ->)%init_Ok (Hx & Hlen & Hv). split_and!.
  - intros k. by apply dangling_iff.
  - intros [k Hk]. rewrite forward_2d, forward_outs_valid by (done || lia).
    simpl. unfold cat. rewrite tensors_None; [done|].
    apply (final_outs_dangling _ F x index G) in Hk; [|done].
    by eapply list_elem_of_lookup_2.
  - intros Hnone. rewrite forward_2d, forward_outs_valid by (done || lia).
    simpl.
    destruct (tensors_all_Some (final_outs aggrs F x index G)) as [ms Hms].
    { intros [k Hk]%list_elem_of_lookup. apply (Hnone k).
      by apply (final_outs_dangling _ F x index G). }
    assert (length ms = length aggrs) as Hlen_ms.
    { rewrite <- (length_final_outs aggrs F x index G), Hms.
      by rewrite length_fmap. }
    assert (ms <> []) as Hne_ms.
    { intros ->. by destruct aggrs. }
    assert (Forall (shape G F) ms) as Hshapes.
    { apply Forall_lookup. intros k m Hk.
      apply (final_outs_shapes aggrs F x index G k); [done|].
      by rewrite Hms, list_lookup_fmap, Hk. }
    rewrite Hms, cat_Some by done. eexists. split; [done|].
    rewrite <- Hlen_ms. by apply shape_cat_value.
Qed.

Lemma X7_forward_returns_or_cat_fails_witness :
  let aggrs := [StdAggregation; VarAggregation; StdAggregation] in
  let x := [[1]; [2]]%float in
  let index := [0; 0]%Z in
  init aggrs = Ok (plan_of aggrs) /\ valid_input 1 x index 1 /\
  dangling (plan_of aggrs) 0 /\
  forward (plan_of aggrs) (Tensor2 1 x) (Some index) 1 (-2) = Raise TypeError 262.
Proof.
  intros aggrs x index.
  assert (init aggrs = Ok (plan_of aggrs)) as Hinit by (vm_compute; reflexivity).
  assert (valid_input 1 x index 1) as Hvalid.
  { unfold valid_input, valid_index. split_and!; repeat constructor; simpl; lia. }
  destruct (X7_forward_returns_or_cat_fails aggrs (plan_of aggrs) 1 x index 1
              Hinit Hvalid) as (Hiff & Hraise & _).
  assert (dangling (plan_of aggrs) 0) as Hd.
  { apply Hiff. exists StdAggregation, VarAggregation, 2.
    split_and!; [reflexivity | by right | by_compute | lia | reflexivity]. }
  split_and!; [exact Hinit | exact Hvalid | exact Hd |].
  apply Hraise. by exists 0.
Defined.

(** X8: when [forward] returns on a valid input, repeated kinds or not,
    the block at the position the dictionary records for a kind is the
    value of that kind, and the block at any other position is the base
    reduction of that position as the base reducer left it: an earlier
    occurrence of a repeated Mean holds the group sums, not the means. *)
Theorem X8_blocks_of_repeated_kinds aggrs self F x index G out :
  init aggrs = Ok self -> valid_input F x index G ->
  forward self (Tensor2 F x) (Some index) G (-2) = Ok out ->
  forall (k : nat) c, aggrs !! k = Some c ->
    (aggr_index self !! c = Some k ->
       block F k out = aggregate c F x index G) /\
    (aggr_index self !! c <> Some k ->
       exists r count mask B,
         base_reduce_of self k (Some r) /\
         degree_stage self (length x) index G = Ok (count, mask) /\
         base_reduce x index G F mask r = Ok B /\
         block F k out = B).
Proof.
  intros (Hne & Hf & ->)%init_Ok (Hx & Hlen & Hv) Hout k c Hk.
  rewrite forward_2d, forward_outs_valid in Hout by (done || lia).
  apply cat_Ok in Hout as (ms & Hms & Hne' & ->).
  assert (Forall (shape G F) ms) as Hshapes.
  { apply Forall_lookup. intros k' m Hk'.
    apply (final_outs_shapes aggrs F x index G k'); [done|].
    by rewrite Hms, list_lookup_fmap, Hk'. }
  assert (forall m, final_outs aggrs F x index G !! k = Some (Some m) ->
                    block F k (cat_value ms) = m) as Hblock.
  { intros m Hm. apply (block_cat_value G); [done|].
    rewrite Hms, list_lookup_fmap in Hm.
    destruct (ms !! k); by simplify_eq/=. }
  simpl. split.
  - intros Hd. by apply Hblock, final_outs_recorded.
  - intros Hd.
    pose proof (final_outs_unrecorded _ F x index G _ _ Hk Hd) as Hfinal.
    destruct (plan_entry_lookup _ _ _ Hk) as [Hr _].
    destruct ((entry (build_aggr_index aggrs) c).1) as [r|] eqn:He.
    + eexists r, _, _, (base_value x index G F r). split_and!.
      * done.
      * by apply degree_stage_valid; [|lia].
      * apply base_reduce_valid; [done | lia |]. intros Hn.
        apply (entry_needs_mask _ _ _ He) in Hn. simpl.
        rewrite (existsb_elem_of _ _ c); [done | | done].
        by eapply list_elem_of_lookup_2.
      * by apply Hblock.
    + simpl in Hfinal. rewrite Hms, list_lookup_fmap in Hfinal.
      by destruct (ms !! k).
Qed.

Lemma X8_blocks_of_repeated_kinds_witness :
  let aggrs := [MeanAggregation; MaxAggregation; MeanAggregation] in
  let x := [[1]; [3]]%float in
  let index := [0; 0]%Z in
  let out := [[4; 3; 2]]%float in
  init aggrs = Ok (plan_of aggrs) /\ valid_input 1 x index 1 /\
  forward (plan_of aggrs) (Tensor2 1 x) (Some index) 1 (-2) = Ok out /\
  block 1 2 out = aggregate MeanAggregation 1 x index 1 /\
  exists r count mask B,
    base_reduce_of (plan_of aggrs) 0 (Some r) /\
    degree_stage (plan_of aggrs) (length x) index 1 = Ok (count, mask) /\
    base_reduce x index 1 1 mask r = Ok B /\
    block 1 0 out = B.
Proof.
  intros aggrs x index out.
  assert (init aggrs = Ok (plan_of aggrs)) as Hinit by (vm_compute; reflexivity).
  assert (valid_input 1 x index 1) as Hvalid.
  { unfold valid_input, valid_index. split_and!; repeat constructor; simpl; lia. }
  assert (forward (plan_of aggrs) (Tensor2 1 x) (Some index) 1 (-2) = Ok out)
    as Hout by (vm_compute; reflexivity).
  pose proof (X8_blocks_of_repeated_kinds aggrs (plan_of aggrs) 1 x index 1 out
                Hinit Hvalid Hout) as Hblocks.
  split_and!; [exact Hinit | exact Hvalid | exact Hout | |].
  - apply (Hblocks 2 MeanAggregation eq_refl). vm_compute. reflexivity.
  - apply (Hblocks 0 MeanAggregation eq_refl). vm_compute. discriminate.
Defined.

(** ** The square root of StdDev *)

Lemma SFsqrt_pos x :
  valid_binary x = true -> sf_pos x -> sf_pos (SFsqrt prec emax x).
Proof.
  destruct x as [s|[]| |[] m e]; try done. intros Hvalid _. simpl.
  apply valid_binary_emin in Hvalid.
  unfold SFsqrt_core_binary.
  set (e' := Z.min (fexp prec emax (Z.div2 (Zdigits2 (Zpos m) + e + 1)))
                   (Z.div2 e)).
  assert (SpecFloat.emin prec emax <= e')%Z as He'.
  { subst e'. apply Z.min_glb.
    - unfold fexp. lia.
    - rewrite Z.div2_div. revert Hvalid.
      unfold SpecFloat.emin, prec, emax. intros Hvalid.
      apply Z.div_le_lower_bound; lia. }
  assert (0 <= e - 2 * e')%Z as Hs.
  { subst e'. pose proof (Z.le_min_r
      (fexp prec emax (Z.div2 (Zdigits2 (Zpos m) + e + 1))) (Z.div2 e)) as Hmin.
    rewrite Z.div2_div in *. pose proof (Z.mul_div_le e 2). lia. }
  set (m' := match (e - 2 * e')%Z with Z0 => Zpos m | Zpos _ => _ | Zneg _ => _ end).
  assert (0 < m')%Z as Hm'.
  { subst m'. destruct (e - 2 * e')%Z eqn:Hd; try lia.
    rewrite Z.shiftl_mul_pow2 by lia.
    apply Z.mul_pos_pos; [lia|]. apply Z.pow_pos_nonneg; lia. }
  pose proof (Z.sqrtrem_spec m' ltac:(lia)) as Hspec.
  destruct (Z.sqrtrem m') as [q r].
  pose proof (binary_round_aux_pos false q e'
    (if (r =? 0)%Z then loc_Exact
     else loc_Inexact (if (r <=? q)%Z then Lt else Gt)) ltac:(nia) He') as H.
  destruct (binary_round_aux _ _ _ _ _ _) as [|[]| |[] ? ?]; done.
Qed.

Lemma sqrt_fpos a : fpos a -> fpos (sqrt a).
Proof.
  unfold fpos. rewrite FloatAxioms.sqrt_spec.
  apply SFsqrt_pos, Prim2SF_valid.
Qed.

Lemma fpos_ltb a : fpos a -> (0 <? a)%float = true.
Proof.
  unfold fpos. rewrite FloatAxioms.ltb_spec, Prim2SF_zero.
  by destruct (Prim2SF a) as [|[]| |[] ? ?].
Qed.

Lemma std_of_var_pos v :
  Scalar.is_nan v = false -> (0 <? Scalar.std_of_var v)%float = true.
Proof.
  intros Hv. apply fpos_ltb, sqrt_fpos, add_fpos.
  - by apply relu_nonneg.
  - apply fpos_eps.
Qed.

(** X9: the epsilon keeps the output of StdDev away from zero: every
    entry whose variance is not NaN is strictly positive, also where the
    variance is zero or negative. *)
Theorem X9_std_strictly_positive aggrs self F x index G i :
  init aggrs = Ok self -> valid_input F x index G ->
  aggr_index self !! StdAggregation = Some i ->
  exists outs std,
    forward_outs self F x index G = Ok outs /\
    outs !! i = Some (Some std) /\
    length std = G /\
    forall (g j : nat) r s,
      std !! g = Some r -> r !! j = Some s ->
      exists r' v,
        var_value F x index G !! g = Some r' /\ r' !! j = Some v /\
        (Scalar.is_nan v = false ->
           (0 <? s)%float = true /\ (s =? 0)%float = false).
Proof.
  intros (Hne & Hf & ->)%init_Ok (Hx & Hlen & Hv) Hi. simpl in Hi.
  exists (final_outs aggrs F x index G), (mstd (var_value F x index G)).
  split_and!.
  - apply forward_outs_valid; [done | lia].
  - by apply final_outs_std.
  - unfold mstd. by rewrite length_fmap, length_var_value.
  - intros g j r s. unfold mstd. rewrite list_lookup_fmap.
    destruct (var_value F x index G !! g) as [r'|]; [|done]. simpl.
    intros [= <-]. rewrite list_lookup_fmap.
    destruct (r' !! j) as [v|] eqn:Hv'; [|done]. simpl. intros [= <-].
    exists r', v. split_and!; [done..|]. intros Hnan. split.
    + by apply std_of_var_pos.
    + apply fpos_eqb_zero, sqrt_fpos, add_fpos;
        [by apply relu_nonneg | apply fpos_eps].
Qed.

Lemma X9_std_strictly_positive_witness :
  let aggrs := [StdAggregation; MeanAggregation] in
  let x := [[2]; [2]]%float in
  let index := [0; 0]%Z in
  init aggrs = Ok (plan_of aggrs) /\ valid_input 1 x index 2 /\
  exists outs std,
    forward_outs (plan_of aggrs) 1 x index 2 = Ok outs /\
    outs !! 0 = Some (Some std) /\
    length std = 2 /\
    forall (g j : nat) r s,
      std !! g = Some r -> r !! j = Some s ->
      exists r' v,
        var_value 1 x index 2 !! g = Some r' /\ r' !! j = Some v /\
        (Scalar.is_nan v = false ->
           (0 <? s)%float = true /\ (s =? 0)%float = false).
Proof.
  intros aggrs x index.
  assert (init aggrs = Ok (plan_of aggrs)) as Hinit by (vm_compute; reflexivity).
  assert (valid_input 1 x index 2) as Hvalid.
  { unfold valid_input, valid_index. split_and!; repeat constructor; simpl; lia. }
  split_and!; [exact Hinit | exact Hvalid |].
  apply (X9_std_strictly_positive aggrs (plan_of aggrs) 1 x index 2 0 Hinit Hvalid).
  vm_compute. reflexivity.
Defined.

(** ** The order of the blocks *)

(** The slots of a request in which no degree-based kind is repeated. *)
Lemma final_outs_unrepeated aggrs F x index G :
  forallb FUSABLE_AGGRS aggrs = true ->
  (forall c (k j : nat), DEGREE_BASED_AGGRS c = true ->
     aggrs !! k = Some c -> aggrs !! j = Some c -> k = j) ->
  final_outs aggrs F x index G =
  Some <$> ((fun c => aggregate c F x index G) <$> aggrs).
Proof.
  intros Hf Huniq. apply list_eq. intros k. rewrite !list_lookup_fmap.
  destruct (aggrs !! k) as [c|] eqn:Hk; simpl.
  - pose proof (fusable_lookup _ _ _ Hf Hk) as Hc.
    destruct (decide (build_aggr_index aggrs !! c = Some k)) as [Hd|Hd].
    { by apply final_outs_recorded. }
    rewrite (final_outs_unrecorded _ _ _ _ _ _ _ Hk Hd).
    destruct (DEGREE_BASED_AGGRS c) eqn:Hdeg.
    + destruct (proj2 (aggr_index_is_Some aggrs c)) as [j Hj].
      { by eapply list_elem_of_lookup_2. }
      apply aggr_index_Some in Hj as Hjc.
      by rewrite (Huniq c k j Hdeg Hk Hjc) in Hd.
    + by destruct (entry_base (build_aggr_index aggrs) c Hdeg Hc)
        as (r & -> & ->).
  - apply lookup_ge_None. apply lookup_ge_None in Hk.
    by rewrite length_final_outs.
Qed.

(** X11: the order property, for every request in which no degree-based
    kind (Mean, Variance, StdDev) is repeated; Sum, Min, Max and Product
    may be.  On a valid input the output is a [G x (K * F)] matrix whose
    block [k] is the value of the kind requested at position [k], which
    is that kind computed alone. *)
Theorem X11_blocks_in_request_order aggrs self F x index G :
  init aggrs = Ok self -> valid_input F x index G ->
  (forall c (k j : nat), DEGREE_BASED_AGGRS c = true ->
     aggrs !! k = Some c -> aggrs !! j = Some c -> k = j) ->
  exists out,
    forward self (Tensor2 F x) (Some index) G (-2) = Ok out /\
    length out = G /\
    Forall (fun row => length row = length aggrs * F) out /\
    forall (k : nat) c, aggrs !! k = Some c ->
      block F k out = aggregate c F x index G /\
      block F k out = unfused c F x index G.
Proof.
  intros (Hne & Hf & ->)%init_Ok (Hx & Hlen & Hv) Huniq.
  pose proof (aggregate_shapes aggrs F x index G Hf Hx) as Hshapes.
  exists (cat_value ((fun c => aggregate c F x index G) <$> aggrs)).
  split_and!.
  - rewrite forward_2d, forward_outs_valid by (done || lia). simpl.
    rewrite final_outs_unrepeated by done. apply cat_Some. by destruct aggrs.
  - apply length_cat_value; [by destruct aggrs|].
    eapply Forall_impl; [exact Hshapes|]. by intros m [? _].
  - rewrite <- (length_fmap (fun c => aggregate c F x index G) aggrs).
    apply (shape_cat_value G); [by destruct aggrs | done].
  - intros k c Hk.
    assert (block F k (cat_value ((fun c => aggregate c F x index G) <$> aggrs))
            = aggregate c F x index G) as ->.
    { apply (block_cat_value G); [done|]. by rewrite list_lookup_fmap, Hk. }
    split; [done|]. apply aggregate_unfused; [done|].
    by eapply fusable_lookup.
Qed.

Lemma X11_blocks_in_request_order_witness :
  let aggrs := [MinAggregation; StdAggregation; MaxAggregation;
                MinAggregation] in
  let x := [[1; 2]; [3; 4]; [5; 6]]%float in
  let index := [1; 1; 0]%Z in
  init aggrs = Ok (plan_of aggrs) /\ valid_input 2 x index 3 /\
  (forall c (k j : nat), DEGREE_BASED_AGGRS c = true ->
     aggrs !! k = Some c -> aggrs !! j = Some c -> k = j) /\
  exists out,
    forward (plan_of aggrs) (Tensor2 2 x) (Some index) 3 (-2) = Ok out /\
    length out = 3 /\
    Forall (fun row => length row = length aggrs * 2) out /\
    forall (k : nat) c, aggrs !! k = Some c ->
      block 2 k out = aggregate c 2 x index 3 /\
      block 2 k out = unfused c 2 x index 3.
Proof.
  intros aggrs x index.
  assert (init aggrs = Ok (plan_of aggrs)) as Hinit by (vm_compute; reflexivity).
  assert (valid_input 2 x index 3) as Hvalid.
  { unfold valid_input, valid_index. split_and!; repeat constructor; simpl; lia. }
  assert (forall c (k j : nat), DEGREE_BASED_AGGRS c = true ->
            aggrs !! k = Some c -> aggrs !! j = Some c -> k = j) as Huniq.
  { intros c k j Hdeg Hk Hj.
    destruct k as [|[|[|[|k]]]], j as [|[|[|[|j]]]]; simpl in Hk, Hj;
      try done; try congruence;
      injection Hk as <-; try injection Hj as Hj; try done. }
  split_and!; [exact Hinit | exact Hvalid | exact Huniq |].
  exact (X11_blocks_in_request_order aggrs (plan_of aggrs) 2 x index 3
           Hinit Hvalid Huniq).
Defined.

(** ** The exceptions of an invocation *)

Lemma scatter_add_raises line self index src :
  may_raise (fun e l => e = RuntimeError /\ l = line)
            (scatter_add_ line self index src).
Proof.
  revert self src. induction index as [|i index IH]; intros self [|s src];
    simpl; try done.
  case_bool_decide; [apply IH | done].
Qed.

Lemma scatter_reduce_raises line op self index F src :
  may_raise (fun e l => e = RuntimeError /\ l = line)
            (scatter_reduce_ line op self index F src).
Proof.
  unfold scatter_reduce_. destruct (decide (F = 0)); [done|].
  revert self src. induction index as [|i index IH]; intros self [|row src];
    simpl; try done.
  case_bool_decide; [apply IH | done].
Qed.

Lemma scatter_reduce_feasible line op G F v index src out :
  scatter_reduce_ line op (new_full G F v) index F src = Ok out ->
  scatter_feasible G F index (length src).
Proof.
  intros Hok. unfold scatter_feasible.
  destruct (decide (F = 0)) as [|HF]; [by left|]. right.
  destruct (decide (valid_index G index /\ length index <= length src))
    as [|Hinv]; [done|].
  rewrite scatter_reduce_invalid in Hok by (done || lia). done.
Qed.

Lemma scatter_reduce_feasible_Ok line op G F v index src :
  scatter_feasible G F index (length src) ->
  exists out, scatter_reduce_ line op (new_full G F v) index F src = Ok out.
Proof.
  intros [->|[Hv Hlen]].
  - by eexists.
  - eexists. by apply scatter_reduce_valid.
Qed.

Lemma new_size_raises line dim_size :
  may_raise (fun e l => (e = TypeError \/ e = RuntimeError) /\ l = line)
            (new_size line dim_size).
Proof.
  unfold new_size. destruct dim_size as [n|]; simpl; [|auto].
  case_bool_decide; simpl; auto.
Qed.

Lemma degree_stage_raises self N index dim_size :
  may_raise (fun e l => size_error e l \/ index_error e l)
            (degree_stage self N index dim_size).
Proof.
  unfold degree_stage, size_error, index_error. destruct (need_degree self).
  - apply may_raise_bind.
    { eapply may_raise_weaken; [|apply new_size_raises].
      intros e l [He ->]. auto. }
    intros G _. apply may_raise_bind; [|done].
    eapply may_raise_weaken; [|apply scatter_add_raises].
    intros e l [-> ->]. auto.
  - destruct (requires_mask self); [|done].
    apply may_raise_bind.
    { eapply may_raise_weaken; [|apply new_size_raises].
      intros e l [He ->]. auto. }
    intros G _. apply may_raise_bind; [|done].
    eapply may_raise_weaken; [|apply index_put_false_may_raise]. auto.
Qed.

Lemma degree_stage_bound self N index dim_size count mask :
  degree_stage self N index dim_size = Ok (count, mask) ->
  (need_degree self = true -> is_Some count) /\
  (requires_mask self = true -> is_Some mask).
Proof.
  unfold degree_stage. destruct (need_degree self).
  - intros (G & _ & (c & _ & [= <- <-])%bind_Ok)%bind_Ok. split; [done|].
    by intros ->.
  - destruct (requires_mask self).
    + intros (G & _ & (m & _ & [= <- <-])%bind_Ok)%bind_Ok. done.
    + intros [= <- <-]. done.
Qed.

Lemma base_reduce_raises x index dim_size F mask r :
  (needs_mask r = true -> is_Some mask) ->
  may_raise (fun e l => size_error e l \/ index_error e l)
            (base_reduce x index dim_size F mask r).
Proof.
  intros Hmask. unfold base_reduce, size_error, index_error.
  apply may_raise_bind.
  { eapply may_raise_weaken; [|apply new_size_raises].
    intros e l [He ->]. auto. }
  intros G _. apply may_raise_bind.
  { eapply may_raise_weaken; [|apply scatter_reduce_raises].
    intros e l [-> ->]. auto. }
  intros out _.
  fold (needs_mask r). destruct (needs_mask r); [|done].
  destruct Hmask as [m ->]; done.
Qed.

Lemma base_reduce_feasible x index dim_size F mask r out :
  base_reduce x index dim_size F mask r = Ok out ->
  exists G : nat,
    dim_size = group_count G /\ scatter_feasible G F index (length x).
Proof.
  unfold base_reduce.
  intros (G & ->%new_size_Ok & (out' & Hs%scatter_reduce_feasible & _)%bind_Ok)
    %bind_Ok.
  exists G. split; [done|].
  destruct (decide (r = r_pow_sum)); [|done].
  rewrite length_mmul in Hs.
  by replace (length x `min` length x) with (length x) in Hs by lia.
Qed.

Lemma base_loop_raises x index dim_size F mask (ops : list (option reduce)) :
  (forall r, Some r ∈ ops -> needs_mask r = true -> is_Some mask) ->
  may_raise (fun e l => size_error e l \/ index_error e l)
            (base_loop x index dim_size F mask ops).
Proof.
  induction ops as [|[r|] ops IH]; intros Hmask; simpl; [done| |].
  - apply may_raise_bind.
    { apply base_reduce_raises. apply Hmask. by left. }
    intros out _. apply may_raise_bind; [|done].
    apply IH. intros r' Hin. apply Hmask. by right.
  - apply may_raise_bind; [|done].
    apply IH. intros r' Hin. apply Hmask. by right.
Qed.

Lemma base_loop_Ok x index dim_size F mask (ops : list (option reduce)) outs :
  base_loop x index dim_size F mask ops = Ok outs ->
  length outs = length ops /\
  (forall (k : nat) r, ops !! k = Some (Some r) ->
     exists m, outs !! k = Some (Some m)) /\
  (forall r, Some r ∈ ops ->
     exists G : nat,
       dim_size = group_count G /\ scatter_feasible G F index (length x)).
Proof.
  revert outs. induction ops as [|[r|] ops IH]; intros outs; simpl.
  - intros [= <-]. split_and!; [done | done |]. by intros r ?%elem_of_nil.
  - intros (out & Hout & (outs' & Houts' & [= <-])%bind_Ok)%bind_Ok.
    destruct (IH _ Houts') as (Hlen & Hsome & Hfeas). split_and!.
    + simpl. by rewrite Hlen.
    + intros [|k] r'; simpl; [eauto | apply Hsome].
    + intros r' [_|Hin]%elem_of_cons; [by eapply base_reduce_feasible | eauto].
  - intros (outs' & Houts' & [= <-])%bind_Ok.
    destruct (IH _ Houts') as (Hlen & Hsome & Hfeas). split_and!.
    + simpl. by rewrite Hlen.
    + intros [|k] r'; simpl; [done | apply Hsome].
    + intros r' [?|Hin]%elem_of_cons; [done | eauto].
Qed.

Lemma written_get aggrs derived outs line (k : nat) c :
  written aggrs derived outs -> aggrs !! k = Some c ->
  is_Some (entry (build_aggr_index aggrs) c).1 \/
  (c ∈ derived /\ build_aggr_index aggrs !! c = Some k) ->
  exists m, list_get line outs k = Ok (Some m).
Proof.
  intros [_ Hw] Hk Hc. destruct (Hw k c Hk Hc) as [m Hm].
  exists m. unfold list_get. by rewrite Hm.
Qed.

Lemma written_insert aggrs derived outs c (i : nat) m :
  written aggrs derived outs -> build_aggr_index aggrs !! c = Some i ->
  written aggrs (c :: derived) (<[i:=Some m]> outs).
Proof.
  intros [Hlen Hw] Hi. split; [by rewrite length_insert|].
  intros k c' Hk Hc'. destruct (decide (k = i)) as [->|Hne].
  - exists m. apply list_lookup_insert_eq. rewrite Hlen.
    by eapply aggr_index_lt.
  - rewrite list_lookup_insert_ne by done. apply (Hw k c' Hk).
    destruct Hc' as [?|[Hin Hd]]; [by left|]. right. split; [|done].
    apply elem_of_cons in Hin as [->|?]; [congruence | done].
Qed.

Lemma written_skip aggrs derived outs c :
  written aggrs derived outs -> build_aggr_index aggrs !! c = None ->
  written aggrs (c :: derived) outs.
Proof.
  intros [Hlen Hw] Hnone. split; [done|].
  intros k c' Hk Hc'. apply (Hw k c' Hk).
  destruct Hc' as [?|[Hin Hd]]; [by left|]. right. split; [|done].
  apply elem_of_cons in Hin as [->|?]; [congruence | done].
Qed.

Lemma written_set aggrs derived outs line c (i : nat) m :
  written aggrs derived outs -> build_aggr_index aggrs !! c = Some i ->
  list_set line outs i (Some m) = Ok (<[i:=Some m]> outs).
Proof.
  intros [Hlen _] Hi. apply list_set_valid. rewrite Hlen.
  by eapply aggr_index_lt.
Qed.

Section Total.
Variables (aggrs : list Aggr) (x : matrix) (index : list Z).
Variables (dim_size : Optional_int) (F : nat).
Variable count : option (list float).
Hypothesis Hcount : need_degree (plan_of aggrs) = true -> is_Some count.
Hypothesis Hfeasible :
  forall r, Some r ∈ reduce_ops (plan_of aggrs) ->
    exists G : nat,
      dim_size = group_count G /\ scatter_feasible G F index (length x).

Let d := build_aggr_index aggrs.

Lemma count_bound c (i : nat) :
  d !! c = Some i -> DEGREE_BASED_AGGRS c = true -> exists n, count = Some n.
Proof.
  intros Hi Hc. apply Hcount. by eapply need_degree_elem_of.
Qed.

Lemma fresh_mean_total line c (i : nat) :
  d !! c = Some i -> DEGREE_BASED_AGGRS c = true ->
  is_Some (entry d c).1 ->
  exists m, fresh_mean line x index dim_size F count = Ok m.
Proof.
  intros Hi Hc [r Hr]. unfold fresh_mean.
  destruct (count_bound c i Hi Hc) as [n ->].
  destruct (Hfeasible r) as (G & -> & Hfeas).
  { simpl. apply list_elem_of_fmap.
    exists c. split; [done|]. by eapply list_elem_of_lookup_2, aggr_index_Some. }
  rewrite new_size_group_count. cbn [bind].
  destruct (scatter_reduce_feasible_Ok line PrimFloat.add G F 0%float index x
              Hfeas) as [out ->].
  by eexists.
Qed.

(** The derivation stages raise nothing once the base reducer has
    returned. *)
Lemma mean_stage_total outs :
  written aggrs [] outs ->
  exists outs', mean_stage (plan_of aggrs) count outs = Ok outs' /\
                written aggrs [MeanAggregation] outs'.
Proof.
  intros Hw. unfold mean_stage. simpl aggr_index. fold d.
  destruct (d !! MeanAggregation) as [i|] eqn:Hi;
    [|eexists; split; [done | by apply written_skip]].
  pose proof (aggr_index_Some _ _ _ Hi) as Hk.
  unfold list_get at 1. rewrite (lookup_ops_lookup _ _ _ Hk). fold d.
  destruct (count_bound _ i Hi eq_refl) as [n ->].
  assert (exists m,
    match (entry d MeanAggregation).2 with
    | Some (tmp_aggr, j) =>
        if decide (tmp_aggr = SumAggregation) then list_get 210 outs j
        else Raise AssertionError 209
    | None => list_get 206 outs i
    end = Ok (Some m)) as [m Hm].
  { unfold entry, plan_entry.
    destruct (d !! SumAggregation) as [j|] eqn:Hj; simpl.
    - apply (written_get _ _ _ _ j SumAggregation Hw);
        [by apply aggr_index_Some | left; by eexists].
    - apply (written_get _ _ _ _ i MeanAggregation Hw); [done|]. left.
      unfold entry, plan_entry. fold d. rewrite Hj. by eexists. }
  cbn [bind]. rewrite Hm. cbn [bind local operand].
  rewrite (written_set _ _ _ _ _ _ _ Hw Hi).
  eexists. split; [done | by apply written_insert].
Qed.

Lemma variance_of_total line pow_sum mean n :
  count = Some n ->
  variance_of line (Some pow_sum) count (Some mean) =
  Ok (msub (mdiv pow_sum n) (mmul mean mean)).
Proof. by intros ->. Qed.

Lemma var_stage_total outs :
  written aggrs [MeanAggregation] outs ->
  exists outs', var_stage (plan_of aggrs) x index dim_size F count outs = Ok outs' /\
                written aggrs [VarAggregation; MeanAggregation] outs'.
Proof.
  intros Hw. unfold var_stage. simpl aggr_index. fold d.
  destruct (d !! VarAggregation) as [i|] eqn:Hi;
    [|eexists; split; [done | by apply written_skip]].
  pose proof (aggr_index_Some _ _ _ Hi) as Hk.
  unfold list_get at 1. rewrite (lookup_ops_lookup _ _ _ Hk). fold d.
  destruct (count_bound _ i Hi eq_refl) as [n Hn].
  assert (is_Some (entry d VarAggregation).1) as Hown.
  { unfold entry, plan_entry. by repeat destruct (d !! _). }
  destruct (written_get _ _ _ 230 i VarAggregation Hw Hk (or_introl Hown))
    as [pow Hpow].
  assert (exists mean,
    match (entry d VarAggregation).2 with
    | Some (tmp_aggr, j) =>
        if decide (tmp_aggr = SumAggregation) then
          bind (list_get 224 outs j) (fun sum_ =>
          bind (local 224 count) (fun count =>
          bind (operand 224 sum_) (fun sum_ => Ok (Some (mdiv sum_ count)))))
        else if decide (tmp_aggr = MeanAggregation) then list_get 226 outs j
        else Raise NotImplementedError 228
    | None =>
        bind (fresh_mean 219 x index dim_size F count) (fun mean => Ok (Some mean))
    end = Ok (Some mean)) as [mean Hmean].
  { revert Hown. unfold entry, plan_entry. intros Hown.
    destruct (d !! MeanAggregation) as [j|] eqn:Hm; simpl.
    - apply (written_get _ _ _ _ j MeanAggregation Hw);
        [by apply aggr_index_Some|]. right. split; [by left | done].
    - destruct (d !! SumAggregation) as [j|] eqn:Hs; simpl.
      + destruct (written_get _ _ _ 224 j SumAggregation Hw) as [m ->];
          [by apply aggr_index_Some | left; by eexists |].
        rewrite Hn. by eexists.
      + destruct (fresh_mean_total 219 VarAggregation i Hi eq_refl) as [m ->].
        { unfold entry, plan_entry. fold d. by rewrite Hm, Hs. }
        by eexists. }
  cbn [bind]. rewrite Hmean. cbn [bind]. rewrite Hpow. cbn [bind].
  rewrite (variance_of_total _ _ _ n Hn). cbn [bind].
  rewrite (written_set _ _ _ _ _ _ _ Hw Hi).
  eexists. split; [done | by apply written_insert].
Qed.

Lemma std_stage_total outs :
  written aggrs [VarAggregation; MeanAggregation] outs ->
  exists outs', std_stage (plan_of aggrs) x index dim_size F count outs = Ok outs' /\
                length outs' = length aggrs.
Proof.
  intros Hw. unfold std_stage. simpl aggr_index. fold d.
  destruct (d !! StdAggregation) as [i|] eqn:Hi;
    [|eexists; split; [done | by destruct Hw]].
  pose proof (aggr_index_Some _ _ _ Hi) as Hk.
  unfold list_get at 1. rewrite (lookup_ops_lookup _ _ _ Hk). fold d.
  destruct (count_bound _ i Hi eq_refl) as [n Hn].
  assert (exists var,
    std_variance x index dim_size F count outs i (entry d StdAggregation).2 = Ok var)
    as [var Hvar].
  { assert (is_Some (entry d StdAggregation).1 ->
            exists m, forall line, list_get line outs i = Ok (Some m)) as Hpow.
    { intros Hown. destruct Hw as [_ Hw].
      destruct (Hw i StdAggregation Hk (or_introl Hown)) as [m Hm].
      exists m. intros line. unfold list_get. by rewrite Hm. }
    assert (is_Some (entry d StdAggregation).1 ->
            forall line, exists m, fresh_mean line x index dim_size F count = Ok m)
      as Hfresh.
    { intros Hown line. by apply (fresh_mean_total line StdAggregation i). }
    revert Hpow Hfresh. unfold entry, plan_entry, std_variance.
    destruct (d !! VarAggregation) as [j|] eqn:Hv; simpl.
    { intros _ _.
      destruct (written_get _ _ _ 245 j VarAggregation Hw) as [m ->];
        [by apply aggr_index_Some | right; split; [by left | done] |].
      by eexists. }
    destruct (d !! MeanAggregation) as [j|] eqn:Hm; simpl.
    { intros [pow Hpow] _; [by eexists|]. rewrite Hpow. cbn [bind].
      destruct (written_get _ _ _ 251 j MeanAggregation Hw) as [m ->];
        [by apply aggr_index_Some | right; split; [by right; left | done] |].
      cbn [bind]. rewrite (variance_of_total _ _ _ n Hn). by eexists. }
    destruct (d !! SumAggregation) as [j|] eqn:Hs; simpl.
    { intros [pow Hpow] _; [by eexists|]. rewrite Hpow. cbn [bind].
      destruct (written_get _ _ _ 248 j SumAggregation Hw) as [m ->];
        [by apply aggr_index_Some | left; by eexists |].
      cbn [bind]. assert (local 248 count = Ok n) as -> by (by rewrite Hn).
      cbn [bind operand].
      rewrite (variance_of_total _ _ _ n Hn). by eexists. }
    intros [pow Hpow] Hfresh; [by eexists|]. rewrite Hpow. cbn [bind].
    destruct (Hfresh ltac:(by eexists) 240) as [m ->]. cbn [bind].
    rewrite (variance_of_total _ _ _ n Hn). by eexists. }
  cbn [bind]. rewrite Hvar. cbn [bind].
  rewrite (written_set _ _ _ _ _ _ _ Hw Hi).
  eexists. split; [done|]. rewrite length_insert. by destruct Hw.
Qed.
End Total.

Lemma tensors_raises line outs :
  may_raise (fun e l => e = TypeError /\ l = line) (tensors line outs).
Proof.
  induction outs as [|[m|] outs IH]; simpl; [done | | done].
  apply may_raise_bind; [apply IH | done].
Qed.

Lemma cat_raises line outs :
  outs <> [] ->
  may_raise (fun e l => e = TypeError /\ l = line) (cat line outs).
Proof.
  intros Hne. unfold cat.
  apply may_raise_bind; [apply tensors_raises|].
  intros [|m ms] Hms; [|done].
  destruct outs as [|[m|] outs]; simpl in Hms; [done | | done].
  by destruct (tensors line outs).
Qed.

(** The list [outs] of an invocation: the only statements that raise are
    those that take [dim_size] as a size and those that consume the group
    index; when they return, every derivation stage returns and [outs]
    has one slot per request. *)
Lemma forward_outs_footprint aggrs F x index dim_size :
  match forward_outs (plan_of aggrs) F x index dim_size with
  | Raise e l => size_error e l \/ index_error e l
  | Ok outs => length outs = length aggrs
  end.
Proof.
  unfold forward_outs.
  pose proof (degree_stage_raises (plan_of aggrs) (length x) index dim_size)
    as Hdeg.
  destruct (degree_stage (plan_of aggrs) (length x) index dim_size)
    as [e l|[count mask]] eqn:Hcm; cbn [bind fst snd]; [exact Hdeg|].
  destruct (degree_stage_bound _ _ _ _ _ _ Hcm) as [Hcount Hmask].
  pose proof (base_loop_raises x index dim_size F mask
                (reduce_ops (plan_of aggrs))) as Hbase.
  destruct (base_loop x index dim_size F mask (reduce_ops (plan_of aggrs)))
    as [e l|outs] eqn:Houts; cbn [bind].
  { apply Hbase.
    simpl. intros r [c [Hr Hc]]%list_elem_of_fmap Hn. apply Hmask.
    symmetry in Hr. apply (entry_needs_mask _ _ _ Hr) in Hn.
    simpl. by rewrite (existsb_elem_of _ _ _ Hc Hn). }
  destruct (base_loop_Ok _ _ _ _ _ _ _ Houts) as (Hlen & Hsome & Hfeas).
  assert (written aggrs [] outs) as Hw.
  { split; [rewrite Hlen; simpl; by rewrite length_fmap|].
    intros k c Hk [[r Hr]|[Hin _]]; [|by apply elem_of_nil in Hin].
    apply (Hsome k r). simpl. rewrite list_lookup_fmap, Hk. simpl.
    by rewrite Hr. }
  destruct (mean_stage_total aggrs count Hcount outs Hw) as (o1 & -> & Hw1).
  cbn [bind].
  destruct (var_stage_total aggrs x index dim_size F count Hcount Hfeas o1 Hw1)
    as (o2 & -> & Hw2).
  cbn [bind].
  by destruct (std_stage_total aggrs x index dim_size F count Hcount Hfeas
                 o2 Hw2) as (o3 & -> & Hlen3).
Qed.

(** X10. Whatever the arguments (a feature tensor of one, two or three
    dimensions, a group index or [None], a [dim_size] that is any integer
    or [None], any [dim]), an invocation of a constructed engine that
    raises, raises one of: the error of a missing group index (line 155)
    or of a feature array that is not 2-dimensional (line 156); the
    [TypeError] or [RuntimeError] of a [dim_size] that is [None] or
    negative, at the first tensor created with it (line 159, 166 or 194);
    the error of a primitive that consumes the group index (the count
    scatter of line 160, the mask assignment of line 167, the base
    reduction of line 195); or the [TypeError] of the concatenation (line
    262).  The derivation stages of lines 203-258 never raise: the local
    variables [count] and [mask] are assigned wherever they are read,
    every list access is in range, no operand is [None], the fresh sums
    of lines 218-219 and 239-240 are accepted, and the list that is
    concatenated is not empty. *)
Theorem X10_invocation_errors aggrs self x index dim_size dim e line :
  init aggrs = Ok self ->
  forward self x index dim_size dim = Raise e line ->
  invocation_error e line.
Proof.
  intros (Hne & Hf & ->)%init_Ok. unfold forward, invocation_error.
  destruct index as [index|]; simpl; [|intros [= <- <-]; tauto].
  unfold assert_two_dimensional_input.
  case_bool_decide as Hdim; simpl; [|intros [= <- <-]; tauto].
  destruct x as [data|F rows|s F data]; simpl in Hdim; try done.
  pose proof (forward_outs_footprint aggrs F rows index dim_size) as Houts.
  destruct (forward_outs (plan_of aggrs) F rows index dim_size)
    as [e' l'|outs]; cbn [bind].
  { intros [= <- <-]. tauto. }
  intros Hcat. pose proof (cat_raises 262 outs) as Hc.
  rewrite Hcat in Hc. destruct Hc as [-> ->]; [|tauto].
  intros ->. by destruct aggrs.
Qed.

Lemma X10_invocation_errors_witness :
  let aggrs := [MinAggregation; StdAggregation] in
  let x := Tensor2 1 [[1%float]] in
  init aggrs = Ok (plan_of aggrs) /\
  forward (plan_of aggrs) x (Some [0%Z]) None (-2) = Raise TypeError 159 /\
  invocation_error TypeError 159.
Proof.
  intros aggrs x.
  assert (init aggrs = Ok (plan_of aggrs)) as Hinit by (vm_compute; reflexivity).
  assert (forward (plan_of aggrs) x (Some [0%Z]) None (-2) =
          Raise TypeError 159) as Hraise by (vm_compute; reflexivity).
  split_and!; [exact Hinit | exact Hraise |].
  exact (X10_invocation_errors aggrs (plan_of aggrs) x (Some [0%Z]) None (-2)
           TypeError 159 Hinit Hraise).
Defined.
